(** * Keyset pagination of serandules/model

    A shallow embedding of the bidirectional keyset-pagination engine of
    [src/index.js] ([exports.find], with visibility filtering inlined) and of
    its near-duplicate in [src/unnamed/part_000] (the plain [exports.find]),
    together with the helpers [exports.invert], [exports.first] and
    [exports.cursor] both files define identically.

    JavaScript objects are kept as property lists in enumeration order, the
    callback protocol [done(err, ...)] becomes a returned outcome, and every
    query handed to the backing store is logged, so that statements about
    "before any store call" can be made. *)

From Stdlib Require Import List ZArith String Bool Lia.
From Stdlib Require Import Sorting.Sorted Sorting.Permutation.
Import ListNotations.
Local Open Scope string_scope.
Local Open Scope list_scope.
Local Open Scope Z_scope.

(** ** Objects *)

Definition Field := string.

(** An object with values in [A]: its own enumerable properties, in the
    order [for (key in o)] visits them. *)
Definition Obj (A : Type) := list (Field * A).

(** [o[k]]; [None] is [undefined]. *)
Fixpoint prop_get {A : Type} (k : Field) (o : Obj A) : option A :=
  match o with
  | [] => None
  | (k', v) :: o' => if String.eqb k k' then Some v else prop_get k o'
  end.

(** [o[k] = v]: an existing property keeps its place, a new one goes last. *)
Fixpoint prop_set {A : Type} (k : Field) (v : A) (o : Obj A) : Obj A :=
  match o with
  | [] => [(k, v)]
  | (k', v') :: o' =>
      if String.eqb k k' then (k, v) :: o' else (k', v') :: prop_set k v o'
  end.

(** Truthiness of a number that may be [undefined]. *)
Definition truthy (v : option Z) : bool :=
  match v with
  | Some n => negb (n =? 0)
  | None => false
  end.

(** [a || b] *)
Definition js_or (a b : option Z) : option Z := if truthy a then a else b.

(** [v === 1] *)
Definition is_one (v : option Z) : bool :=
  match v with
  | Some n => n =? 1
  | None => false
  end.

(** Numbers are kept as integers. The one sum [find] computes,
    [search.count + 1], is a sum of doubles: it is the integer sum when
    [count] is a safe integer ([Number.isSafeInteger]), and what is stated
    about the value of that sum is stated for such page sizes. *)
Definition safe_integer (n : Z) : bool := Z.abs n <? 2 ^ 53.

(** ** Data model *)

(** Sort specifications and index hints: field to order. *)
Definition SortSpec := Obj Z.

(** A stored record (integer-valued fields). *)
Definition Row := Obj Z.

(** A cursor holds, per hint field, the boundary record's value, which is
    [undefined] when the record lacks the field. *)
Definition Cursor := Obj (option Z).

(** A field projection, as given to [select]. *)
Definition Fields := Obj Z.

(** The filter is opaque to this layer: it is handed to the store, which
    applies it to each stored record, and is kept as the predicate it
    denotes. *)
Definition Query := Row -> bool.

Definition Err := string.

(** [ctx.search] *)
Record Search := {
  search_query : Query;
  search_sort : SortSpec;
  search_count : Z;
  search_cursor : option Cursor;
  search_direction : option Z;
  search_fields : option Fields
}.

(** The links [{query, sort, cursor, direction}] built by [find]. *)
Record Link := {
  link_query : Query;
  link_sort : SortSpec;
  link_cursor : Cursor;
  link_direction : Z
}.

(** [{last: ..., next: ...}], [last] being the link to the previous page. *)
Record Paging := {
  last : option Link;
  next : option Link
}.

(** The [options] object given to [setOptions]. *)
Record Options := {
  min : option Cursor;
  max : option Cursor
}.

(** What the chain
    [find(query).sort(sorter).select(fields).limit(count).hint(hint).setOptions(options)]
    has accumulated when [exec] runs it. *)
Record StoreQuery := {
  q_find : Query;
  q_sort : SortSpec;
  q_select : option Fields;
  q_limit : Z;
  q_hint : SortSpec;
  q_options : Options
}.

(** [ctx]: [ctx.model] is the store handle, seen as the function from the
    accumulated query to what [exec] calls back with. *)
Record Ctx := {
  ctx_validated : bool;
  ctx_search : Search;
  ctx_queried : Query;
  ctx_model : StoreQuery -> Err + list Row
}.

(** The modules [find] requires: [validators.model[name]] (which may rewrite
    the context it validates), [utils.json] and [utils.visibles]. *)
Record Externals := {
  validators_model : string -> Ctx -> Err + Ctx;
  utils_json : Row -> Row;
  utils_visibles : Ctx -> Row -> Err + Row
}.

(** How a call of [find] ends: an uncaught [TypeError], [done(err)], or
    [done(null, records, {last, next})]. *)
Inductive Outcome : Type :=
| Threw
| Failed (err : Err)
| Found (records : list Row) (paging : Paging).

(** A call of [find]: the store queries it issued, and how it ended. *)
Record Run := {
  issued : list StoreQuery;
  outcome : Outcome
}.

(** ** Helpers shared by both files *)

(** [validate(name, ctx, done)] *)
Definition validate (E : Externals) (name : string) (ctx : Ctx) : Err + Ctx :=
  if ctx_validated ctx then inr ctx else validators_model E name ctx.

(** [exports.invert] *)
Definition invert (o : SortSpec) : SortSpec :=
  map (fun kv => (fst kv, snd kv * -1)) o.

(** [exports.first]; [None] is [null]. *)
Definition first {A : Type} (o : Obj A) : option Field :=
  match o with
  | [] => None
  | (key, _) :: _ => Some key
  end.

(** [exports.cursor(index, o)], [o] being [None] when it is [undefined]:
    reading [o[field]] then throws, which [None] stands for. *)
Definition cursor (index : SortSpec) (o : option Row) : option Cursor :=
  match index, o with
  | [], _ => Some []
  | _ :: _, None => None
  | _ :: _, Some r => Some (map (fun kv => (fst kv, prop_get (fst kv) r)) index)
  end.

(** [oo[oo.length - 1]]; [None] is [undefined]. *)
Definition last_of (oo : list Row) : option Row :=
  match oo with
  | [] => None
  | o :: _ => Some (List.last oo o)
  end.

(** [oo.pop()]: the removed element ([undefined] on an empty array) and the
    array as it is left. *)
Definition pop (oo : list Row) : option Row * list Row :=
  (last_of oo, removelast oo).

(** [sort[exports.first(sort)]]: on an empty [sort] the key is [null], read
    as the property named "null". *)
Definition primary_order (sort : SortSpec) : option Z :=
  match first sort with
  | Some key => prop_get key sort
  | None => prop_get "null" sort
  end.

(** ** [src/index.js] *)

Module Index.

(** What lines 231-243 of [find] compute from [search]. *)
Record Resolved := {
  r_order : option Z;
  r_direction : option Z;
  r_natural : bool;
  r_hint : SortSpec;
  r_invert : bool;
  r_sorter : SortSpec
}.

(** Lines 230-243: [order], [direction], [natural], then [hint], [invert]
    and [sorter] by the branch on [order === 1]. *)
Definition resolve (search : Search) : Resolved :=
  let sort := search_sort search in
  let order := primary_order sort in
  let direction := js_or (search_direction search) order in
  let natural := is_one direction in
  if is_one order then
    let hint := sort in
    let inv := negb natural in
    {| r_order := order; r_direction := direction; r_natural := natural;
       r_hint := hint; r_invert := inv;
       r_sorter := if inv then invert sort else sort |}
  else
    let hint := invert sort in
    let inv := natural in
    {| r_order := order; r_direction := direction; r_natural := natural;
       r_hint := hint; r_invert := inv;
       r_sorter := if inv then hint else sort |}.

(** Lines 244-247: [_.clone(search.fields)] with [visibility] switched on. *)
Definition projection (search : Search) : option Fields :=
  match search_fields search with
  | Some fields => Some (prop_set "visibility" 1 fields)
  | None => None
  end.

(** Lines 248-255: the [options] object. *)
Definition range (search : Search) (natural : bool) : Options :=
  match search_cursor search with
  | Some c =>
      if natural then {| min := Some c; max := None |}
      else {| min := None; max := Some c |}
  | None => {| min := None; max := None |}
  end.

(** Lines 256-270: the closure [filter]. *)
Definition filter (fields : option Fields) (o : Row) : Row :=
  match fields with
  | None => o
  | Some fs =>
      if truthy (prop_get "visibility" fs) then o
      else List.filter (fun kv => truthy (prop_get (fst kv) fs)) o
  end.

(** Lines 283-320: [left], [right] and the rows left in [oo]; [None] when
    [exports.cursor] throws. [count] is the local [count], one more than
    [search.count]. *)
Definition sides (queried : Query) (search : Search) (hint : SortSpec)
  (natural : bool) (count : Z) (oo : list Row)
  : option (option Link * option Link * list Row) :=
  let sort := search_sort search in
  if natural then
    let left :=
      match search_cursor search with
      | Some c => Some {| link_query := queried; link_sort := sort;
                          link_cursor := c; link_direction := -1 |}
      | None => None
      end in
    if Z.of_nat (List.length oo) =? count then
      let (popped, oo') := pop oo in
      match cursor hint popped with
      | Some c => Some (left,
                        Some {| link_query := queried; link_sort := sort;
                                link_cursor := c; link_direction := 1 |},
                        oo')
      | None => None
      end
    else Some (left, None, oo)
  else
    let right :=
      match search_cursor search with
      | Some c => Some {| link_query := queried; link_sort := sort;
                          link_cursor := c; link_direction := 1 |}
      | None => None
      end in
    if Z.of_nat (List.length oo) =? count then
      let (_, oo') := pop oo in
      match cursor hint (last_of oo') with
      | Some c => Some (Some {| link_query := queried; link_sort := sort;
                                link_cursor := c; link_direction := -1 |},
                        right, oo')
      | None => None
      end
    else Some (None, right, oo).

(** Lines 321-329: [left] and [right] onto [last] and [next]. *)
Definition place (order : option Z) (left right : option Link) : Paging :=
  if is_one order then {| last := left; next := right |}
  else {| last := right; next := left |}.

(** [async.eachSeries] collecting into [ooo]: one record after the other,
    stopping at the first error. *)
Fixpoint each_series (f : Row -> Err + Row) (oo : list Row) : Err + list Row :=
  match oo with
  | [] => inr []
  | o :: oo' =>
      match f o with
      | inl err => inl err
      | inr o' =>
          match each_series f oo' with
          | inl err => inl err
          | inr ooo => inr (o' :: ooo)
          end
      end
  end.

(** The store query of lines 273-278. *)
Definition store_query (search : Search) : StoreQuery :=
  let R := resolve search in
  {| q_find := search_query search;
     q_sort := r_sorter R;
     q_select := projection search;
     q_limit := search_count search + 1;
     q_hint := r_hint R;
     q_options := range search (r_natural R) |}.

(** [exports.find] *)
Definition find (E : Externals) (ctx0 : Ctx) : Run :=
  match validate E "find" ctx0 with
  | inl err => {| issued := []; outcome := Failed err |}
  | inr ctx =>
      let search := ctx_search ctx in
      let count := search_count search + 1 in
      let R := resolve search in
      let fields := projection search in
      let queried := ctx_queried ctx in
      let q := store_query search in
      {| issued := [q];
         outcome :=
           match ctx_model ctx q with
           | inl err => Failed err
           | inr oo =>
               match sides queried search (r_hint R) (r_natural R) count oo with
               | None => Threw
               | Some (lft, rgt, oo) =>
                   let paging := place (r_order R) lft rgt in
                   let oo := if r_invert R then rev oo else oo in
                   match each_series
                           (fun o => utils_visibles E ctx
                                       (filter fields (utils_json E o))) oo with
                   | inl err => Failed err
                   | inr ooo => Found ooo paging
                   end
               end
           end |}
  end.

End Index.

(** ** [src/unnamed/part_000] *)

Module Part000.

(** [exports.find], without visibility filtering: the rows go to the caller
    as the store returned them, and the links carry [search.query]. *)
Definition find (E : Externals) (ctx0 : Ctx) : Run :=
  match validate E "find" ctx0 with
  | inl err => {| issued := []; outcome := Failed err |}
  | inr ctx =>
      let search := ctx_search ctx in
      let query := search_query search in
      let sort := search_sort search in
      let count := search_count search + 1 in
      let order := primary_order sort in
      let direction := js_or (search_direction search) order in
      let natural := is_one direction in
      let '(hint, inv, sorter) :=
        if is_one order then
          (sort, negb natural, if negb natural then invert sort else sort)
        else
          (invert sort, natural, if natural then invert sort else sort) in
      let options :=
        match search_cursor search with
        | Some c =>
            if natural then {| min := Some c; max := None |}
            else {| min := None; max := Some c |}
        | None => {| min := None; max := None |}
        end in
      let q := {| q_find := query; q_sort := sorter;
                  q_select := search_fields search; q_limit := count;
                  q_hint := hint; q_options := options |} in
      let link c d := {| link_query := query; link_sort := sort;
                         link_cursor := c; link_direction := d |} in
      {| issued := [q];
         outcome :=
           match ctx_model ctx q with
           | inl err => Failed err
           | inr o =>
               let full := Z.of_nat (List.length o) =? count in
               let assembled :=
                 if natural then
                   let left := option_map (fun c => link c (-1))
                                          (search_cursor search) in
                   if full then
                     match cursor hint (fst (pop o)) with
                     | Some c => Some (left, Some (link c 1), snd (pop o))
                     | None => None
                     end
                   else Some (left, None, o)
                 else
                   let right := option_map (fun c => link c 1)
                                           (search_cursor search) in
                   if full then
                     match cursor hint (last_of (snd (pop o))) with
                     | Some c => Some (Some (link c (-1)), right, snd (pop o))
                     | None => None
                     end
                   else Some (None, right, o) in
               match assembled with
               | None => Threw
               | Some (lft, rgt, o) =>
                   let paging :=
                     if is_one order then {| last := lft; next := rgt |}
                     else {| last := rgt; next := lft |} in
                   Found (if inv then rev o else o) paging
               end
           end |}
  end.

End Part000.

(** ** The backing store

    The collection behind [ctx.model] is MongoDB, reached through mongoose;
    neither is part of the repository. [exec] below is the one query [find]
    issues, run over a finite collection [db], with the capabilities [find]
    uses: filter by the predicate, keep the rows inside the bounds, sort by
    the explicit sort, cut at the limit, project. Bounds are read in the
    order of the hinted index, as MongoDB reads the options [min] and [max]:
    [min] is the inclusive lower bound and [max] the exclusive upper bound.
    [closed] switches [max] to an inclusive bound; it is [false] for MongoDB
    and is there to show that [find] relies on the exclusive bound. *)

Module Store.

(** Order of two values, [undefined] (a missing field) before any number. *)
Definition cmp_value (a b : option Z) : comparison :=
  match a, b with
  | None, None => Eq
  | None, Some _ => Lt
  | Some _, None => Gt
  | Some x, Some y => x ?= y
  end.

(** Order of two keys under a key pattern: field by field, a field of
    positive order ascending, any other descending. *)
Fixpoint cmp_keys (index : SortSpec) (a b : Field -> option Z) : comparison :=
  match index with
  | [] => Eq
  | (f, o) :: index' =>
      match cmp_value (a f) (b f) with
      | Eq => cmp_keys index' a b
      | c => if 0 <? o then c else CompOpp c
      end
  end.

Definition row_key (r : Row) : Field -> option Z := fun f => prop_get f r.

Definition cursor_key (c : Cursor) : Field -> option Z :=
  fun f => match prop_get f c with Some v => v | None => None end.

(** A key pattern the store accepts: every order is 1 or -1. *)
Definition key_pattern (index : SortSpec) : bool :=
  forallb (fun kv => (snd kv =? 1) || (snd kv =? -1)) index.

(** A bound must name the fields of the hinted index, in its order. *)
Fixpoint same_fields (index : SortSpec) (c : Cursor) : bool :=
  match index, c with
  | [], [] => true
  | (f, _) :: index', (g, _) :: c' => String.eqb f g && same_fields index' c'
  | _, _ => false
  end.

(** [min]: at or after the bound in index order. *)
Definition from_min (hint : SortSpec) (c : Cursor) (r : Row) : bool :=
  match cmp_keys hint (row_key r) (cursor_key c) with
  | Lt => false
  | _ => true
  end.

(** [max]: before the bound in index order, and at it when [closed]. *)
Definition to_max (closed : bool) (hint : SortSpec) (c : Cursor) (r : Row)
  : bool :=
  match cmp_keys hint (row_key r) (cursor_key c) with
  | Lt => true
  | Eq => closed
  | Gt => false
  end.

(** The rows the bounds of a query let through. *)
Definition admits (closed : bool) (q : StoreQuery) (r : Row) : bool :=
  match min (q_options q) with
  | Some c => from_min (q_hint q) c r
  | None => true
  end
  &&
  match max (q_options q) with
  | Some c => to_max closed (q_hint q) c r
  | None => true
  end.

Definition leb (sorter : SortSpec) (x y : Row) : bool :=
  match cmp_keys sorter (row_key x) (row_key y) with
  | Gt => false
  | _ => true
  end.

Fixpoint insert (sorter : SortSpec) (x : Row) (l : list Row) : list Row :=
  match l with
  | [] => [x]
  | y :: l' => if leb sorter x y then x :: l else y :: insert sorter x l'
  end.

(** Stable sort by the explicit sort. *)
Fixpoint sort_rows (sorter : SortSpec) (l : list Row) : list Row :=
  match l with
  | [] => []
  | x :: l' => insert sorter x (sort_rows sorter l')
  end.

(** [limit(n)]: no limit at 0, and the magnitude of a negative one. *)
Definition limit (n : Z) (l : list Row) : list Row :=
  if n =? 0 then l else firstn (Z.abs_nat n) l.

(** [select(fields)]: nothing selected keeps the row; a projection naming a
    field to include keeps the included fields and [_id]; one that only
    excludes drops the fields it names. *)
Definition select (fields : option Fields) (r : Row) : Row :=
  match fields with
  | None => r
  | Some fs =>
      if existsb (fun kv => negb (snd kv =? 0)) fs then
        List.filter
          (fun kv => truthy (prop_get (fst kv) fs)
                     || (String.eqb (fst kv) "_id"
                         && match prop_get "_id" fs with
                            | Some _ => false
                            | None => true
                            end)) r
      else
        List.filter
          (fun kv => match prop_get (fst kv) fs with
                     | Some _ => false
                     | None => true
                     end) r
  end.

Definition bounds_fit (q : StoreQuery) : bool :=
  match min (q_options q) with
  | Some c => same_fields (q_hint q) c
  | None => true
  end
  &&
  match max (q_options q) with
  | Some c => same_fields (q_hint q) c
  | None => true
  end.

(** One query over the collection [db]. *)
Definition exec (closed : bool) (db : list Row) (q : StoreQuery)
  : Err + list Row :=
  if negb (key_pattern (q_sort q) && key_pattern (q_hint q)) then
    inl "bad key pattern"
  else if negb (bounds_fit q) then
    inl "bound does not match the hinted index"
  else
    inr (map (select (q_select q))
           (limit (q_limit q)
              (sort_rows (q_sort q)
                 (List.filter (fun r => q_find q r && admits closed q r) db)))).

(** MongoDB: [max] is exclusive. *)
Definition mongo : list Row -> StoreQuery -> Err + list Row := exec false.

End Store.

(** ** Walking a result set *)

(** Issuing the request held in a link: the link's query, sort, cursor and
    direction, with the page size and projection of the request the link
    came from. *)
Definition follow (ctx : Ctx) (l : Link) : Ctx :=
  {| ctx_validated := ctx_validated ctx;
     ctx_search :=
       {| search_query := link_query l;
          search_sort := link_sort l;
          search_count := search_count (ctx_search ctx);
          search_cursor := Some (link_cursor l);
          search_direction := Some (link_direction l);
          search_fields := search_fields (ctx_search ctx) |};
     ctx_queried := link_query l;
     ctx_model := ctx_model ctx |}.

(** Follow [next] until it is null, collecting the records of every page;
    [None] when a call does not end in a page or the fuel runs out. *)
Fixpoint walk (find : Ctx -> Run) (fuel : nat) (ctx : Ctx)
  : option (list Row) :=
  match fuel with
  | O => None
  | S fuel' =>
      match outcome (find ctx) with
      | Found records paging =>
          match next paging with
          | None => Some records
          | Some l =>
              match walk find fuel' (follow ctx l) with
              | Some more => Some (records ++ more)
              | None => None
              end
          end
      | _ => None
      end
  end.

(** ** The scenario of five records *)

Module Scenario.

Definition record (n : Z) : Row := [("_id", n); ("field", n)].

Definition db : list Row := map record [3; 1; 5; 2; 4].

(** No validation to run, and every field visible. *)
Definition plain : Externals :=
  {| validators_model := fun _ ctx => inr ctx;
     utils_json := fun o => o;
     utils_visibles := fun _ o => inr o |}.

Definition all : Query := fun _ => true.

Definition request (sort : SortSpec) (count : Z) : Ctx :=
  {| ctx_validated := true;
     ctx_search :=
       {| search_query := all;
          search_sort := sort;
          search_count := count;
          search_cursor := None;
          search_direction := None;
          search_fields := None |};
     ctx_queried := all;
     ctx_model := Store.mongo db |}.

Definition ascending : SortSpec := [("field", 1)].

Definition page1 : Ctx := request ascending 2.

(** A link of the ascending walk: its cursor is the value [n] of [field]. *)
Definition link (n : Z) (d : Z) : Link :=
  {| link_query := all; link_sort := ascending;
     link_cursor := [("field", Some n)]; link_direction := d |}.

(** The first page asked for in a context whose recorded query is not the
    query that is run. *)
Definition relabelled : Ctx :=
  {| ctx_validated := true;
     ctx_search := ctx_search page1;
     ctx_queried := fun _ => false;
     ctx_model := Store.mongo db |}.

(** The descending sort, ending in the identity field. *)
Definition descending : SortSpec := [("field", -1); ("_id", -1)].

(** Two records of equal [field], asked for one at a time along the sort on
    [field] alone. *)
Definition twins : Ctx :=
  {| ctx_validated := true;
     ctx_search := ctx_search (request ascending 1);
     ctx_queried := all;
     ctx_model := Store.mongo [[("_id", 1); ("field", 7)];
                               [("_id", 2); ("field", 7)]] |}.

(** The same request against a store whose [max] bound is inclusive. *)
Definition closed_store (ctx : Ctx) : Ctx :=
  {| ctx_validated := ctx_validated ctx;
     ctx_search := ctx_search ctx;
     ctx_queried := ctx_queried ctx;
     ctx_model := Store.exec true db |}.

End Scenario.

(** ** Reading a run *)

Definition records_of (o : Outcome) : option (list Row) :=
  match o with
  | Found records _ => Some records
  | _ => None
  end.

(** The [next] link of a page. *)
Definition next_of (o : Outcome) : option Link :=
  match o with
  | Found _ paging => next paging
  | _ => None
  end.

(** The cursor [exports.cursor] builds from a row that is there. *)
Definition cursor_at (index : SortSpec) (r : Row) : Cursor :=
  map (fun kv => (fst kv, prop_get (fst kv) r)) index.

(** The link [find] of [src/index.js] builds for a cursor and a direction. *)
Definition link_of (ctx : Ctx) (c : Cursor) (d : Z) : Link :=
  {| link_query := ctx_queried ctx;
     link_sort := search_sort (ctx_search ctx);
     link_cursor := c;
     link_direction := d |}.

(** The link back to where the scan came from: the request's own cursor,
    the direction flipped. *)
Definition back_link (ctx : Ctx) (natural : bool) : option Link :=
  match search_cursor (ctx_search ctx) with
  | Some c => Some (link_of ctx c (if natural then -1 else 1))
  | None => None
  end.

(** Rows in the order of a sort specification. *)
Definition sorted_by (s : SortSpec) (l : list Row) : Prop :=
  StronglySorted (fun x y => Store.leb s x y = true) l.

(** A link with its query replaced. *)
Definition with_query (q : Query) (l : Link) : Link :=
  {| link_query := q; link_sort := link_sort l;
     link_cursor := link_cursor l; link_direction := link_direction l |}.

Definition paging_with_query (q : Query) (p : Paging) : Paging :=
  {| last := option_map (with_query q) (last p);
     next := option_map (with_query q) (next p) |}.

(** What [find] of [src/index.js] does to each row before it returns it. *)
Definition post (E : Externals) (ctx : Ctx) (o : Row) : Err + Row :=
  utils_visibles E ctx
    (Index.filter (Index.projection (ctx_search ctx)) (utils_json E o)).

(** One row comes strictly before another in the order of a sort. *)
Definition before (s : SortSpec) (x y : Row) : Prop :=
  Store.cmp_keys s (Store.row_key x) (Store.row_key y) = Lt.

(** No two rows of the list have the same key under the sort: the sort
    orders them totally, as a sort ending in the identity field does. *)
Fixpoint distinct_keys (s : SortSpec) (l : list Row) : bool :=
  match l with
  | [] => true
  | x :: l' =>
      forallb (fun y =>
                 match Store.cmp_keys s (Store.row_key x) (Store.row_key y) with
                 | Eq => false
                 | _ => true
                 end) l'
      && distinct_keys s l'
  end.

(** ** The requests of a walk *)

(** The hint of every request of a walk along the sort [s]. *)
Definition walk_hint (s : SortSpec) : SortSpec :=
  if is_one (primary_order s) then s else invert s.

(** The requests of the walk of the records of [db] matching [q], along the
    sort [s], in pages of [n]: they carry the validation mark [v], run
    against [db], with that query (which is also the query recorded for the
    request), sort and page size, hand the projection [pj] to the store, and
    run in the direction of the sort. *)
Definition asks (v : bool) (db : list Row) (q : Query) (s : SortSpec) (n : Z)
  (pj : option Fields) (ctx : Ctx) : Prop :=
  ctx_validated ctx = v
  /\ ctx_model ctx = Store.mongo db
  /\ ctx_queried ctx = q
  /\ search_query (ctx_search ctx) = q
  /\ search_sort (ctx_search ctx) = s
  /\ search_count (ctx_search ctx) = n
  /\ Index.projection (ctx_search ctx) = pj
  /\ (search_direction (ctx_search ctx) = None
      \/ search_direction (ctx_search ctx) = primary_order s).

(** The records a request of the walk has yet to visit, [sorted] being the
    matching records in the order of the sort: all of them without cursor;
    with the cursor of a row, the rows from that row on when the primary
    order is 1, and the rows after that row otherwise. *)
Definition resumes (sorted : list Row) (s : SortSpec) (ctx : Ctx)
  (rest : list Row) : Prop :=
  match search_cursor (ctx_search ctx) with
  | None => rest = sorted
  | Some c =>
      if is_one (primary_order s) then
        exists pre r rest',
          sorted = pre ++ r :: rest' /\ rest = r :: rest' /\ c = cursor_at s r
      else
        exists pre r,
          sorted = pre ++ r :: rest /\ c = cursor_at (invert s) r
  end.

(** A request with the projection [fields]. *)
Definition selecting (fields : Fields) (ctx : Ctx) : Ctx :=
  {| ctx_validated := ctx_validated ctx;
     ctx_search :=
       {| search_query := search_query (ctx_search ctx);
          search_sort := search_sort (ctx_search ctx);
          search_count := search_count (ctx_search ctx);
          search_cursor := search_cursor (ctx_search ctx);
          search_direction := search_direction (ctx_search ctx);
          search_fields := Some fields |};
     ctx_queried := ctx_queried ctx;
     ctx_model := ctx_model ctx |}.

(** A projection the walk can go through: none, or one that only includes
    fields (every value is 1), the fields of the sort among them; [_id] need
    not be named, the store returns it unless it is excluded. *)
Definition keeps_sort (fields : option Fields) (sort : SortSpec) : bool :=
  match fields with
  | None => true
  | Some fs =>
      forallb (fun kv => snd kv =? 1) fs
      && forallb (fun kv => String.eqb (fst kv) "_id"
                            || truthy (prop_get (fst kv) fs)) sort
  end.

(** A primary order the specification allows: 1 or -1. *)
Definition unit_order (o : option Z) : Prop := o = Some 1 \/ o = Some (-1).

(** ** The bounds as the specification words them *)



(** ** The other exports of both files

    [exports.objectId], [exports.ensureIndexes] and [exports.cast] are the
    same in [src/index.js] and [src/unnamed/part_000]. *)

(** The character class [[0-9a-fA-F]]. *)
Definition hex_digit (c : Ascii.ascii) : bool :=
  let n := Ascii.nat_of_ascii c in
  ((48 <=? n) && (n <=? 57)
   || (97 <=? n) && (n <=? 102)
   || (65 <=? n) && (n <=? 70))%nat.

(** [[0-9a-fA-F]{n}] at the start of [s]: what is left of [s] after [n]
    characters of the class, [None] when they are not there. *)
Fixpoint match_hex (n : nat) (s : string) : option string :=
  match n with
  | O => Some s
  | S n' =>
      match s with
      | String c s' => if hex_digit c then match_hex n' s' else None
      | EmptyString => None
      end
  end.

(** [exports.objectId]: [id.match(/^[0-9a-fA-F]{24}$/)], the match array
    (its one entry is the whole match) or [None] for [null]. *)
Definition objectId (id : string) : option (list string) :=
  match match_hex 24 id with
  | Some EmptyString => Some [id]
  | _ => None
  end.

Module Schema.

(** [o.options] of a schema path, with its flags read for truthiness. *)
Record PathOptions := {
  searchable : bool;
  sortable : bool
}.

(** [schema.paths]: per path its schema type, whose [options] may be
    missing. *)
Definition Paths := Obj (option PathOptions).

(** What a call of [ensureIndexes] leaves: the indexes handed to
    [schema.index], in call order; the caller's array [compounds] after the
    pushes; and [schema.compounds]. *)
Record Ensured := {
  declared : list SortSpec;
  pushed : list SortSpec;
  compounds : list SortSpec
}.

(** The body of the first loop, for one path. *)
Definition declare_path (acc : list SortSpec * list SortSpec)
  (p : Field * option PathOptions) : list SortSpec * list SortSpec :=
  let path := fst p in
  let options :=
    match snd p with
    | Some o => o
    | None => {| searchable := false; sortable := false |}
    end in
  if negb (searchable options) && negb (sortable options) then acc
  else
    let index := prop_set path 1 [] in
    if negb (sortable options) then (fst acc ++ [index], snd acc)
    else
      let index := prop_set "_id" 1 index in
      (fst acc ++ [index], snd acc ++ [index]).

(** [exd[Object.keys(exd)[0]] = -1] on the clone [exd]; without a first key
    the property written is the one named "undefined". *)
Definition extend (o : SortSpec) : SortSpec :=
  match first o with
  | Some key => prop_set key (-1) o
  | None => prop_set "undefined" (-1) o
  end.

(** The body of the second loop, for one compound. *)
Definition declare_compound (acc : list SortSpec * list SortSpec)
  (o : SortSpec) : list SortSpec * list SortSpec :=
  (fst acc ++ [o; extend o], snd acc ++ [extend o]).

(** [exports.ensureIndexes(schema, compounds)] *)
Definition ensureIndexes (paths : Paths) (compounds0 : list SortSpec)
  : Ensured :=
  let '(declared1, compounds1) :=
    fold_left declare_path paths ([], compounds0) in
  let '(declared2, extended) :=
    fold_left declare_compound compounds1 (declared1, []) in
  {| declared := declared2;
     pushed := compounds1;
     compounds := compounds1 ++ extended |}.

(** A path whose options ask for an index, and one whose options make it
    sortable. *)
Definition is_indexed (p : Field * option PathOptions) : bool :=
  match snd p with
  | Some o => searchable o || sortable o
  | None => false
  end.

Definition is_sortable (p : Field * option PathOptions) : bool :=
  match snd p with
  | Some o => sortable o
  | None => false
  end.

(** The compound index of a sortable path: the path, then [_id]. *)
Definition compound_of (path : Field) : SortSpec :=
  prop_set "_id" 1 [(path, 1)].

(** The index of the first loop for a path that asks for one. *)
Definition index_of (p : Field * option PathOptions) : SortSpec :=
  if is_sortable p then compound_of (fst p) else [(fst p, 1)].

End Schema.

Module Casting.

Section Values.

(** The values of the fields of [data]. *)
Variable V : Type.

(** [paths[field].options]: its [type] is a constructor, which may throw
    ([None]), or is missing. *)
Record TypeOptions := {
  type : option (V -> option V)
}.

(** [schema.paths] as [cast] reads it: a path may be missing, and so may
    its [options]. *)
Definition Paths := Obj (option TypeOptions).

(** How a call of [cast] ends, with [data] as the call leaves it: [cast]
    returns it, or an exception leaves it as far as it was rewritten. *)
Inductive Cast : Type :=
| Returned (data : Obj V)
| Thrown (data : Obj V).

(** The loop of [cast]: [done] holds the properties rewritten so far and
    [todo] the ones still to visit. *)
Fixpoint cast_loop (ObjectId : V -> option V) (paths : Paths)
  (done todo : Obj V) : Cast :=
  match todo with
  | [] => Returned done
  | (field, v) :: todo' =>
      match prop_get field paths with
      | None => Thrown (done ++ todo)
      | Some None => Thrown (done ++ todo)
      | Some (Some options) =>
          if String.eqb field "_id" then
            match ObjectId v with
            | Some v' => cast_loop ObjectId paths (done ++ [(field, v')]) todo'
            | None => Thrown (done ++ todo)
            end
          else
            match type options with
            | Some ctor =>
                match ctor v with
                | Some v' => cast_loop ObjectId paths (done ++ [(field, v')]) todo'
                | None => Thrown (done ++ todo)
                end
            | None => Thrown (done ++ todo)
            end
      end
  end.

(** [exports.cast(model, data)], [paths] being [model.schema.paths]. *)
Definition cast (ObjectId : V -> option V) (paths : Paths) (data : Obj V)
  : Cast :=
  cast_loop ObjectId paths [] data.

(** What [cast] puts in place of the value of a field, when it can. *)
Definition converted (ObjectId : V -> option V) (paths : Paths)
  (field : Field) (v : V) : option V :=
  match prop_get field paths with
  | Some (Some options) =>
      if String.eqb field "_id" then ObjectId v
      else match type options with
           | Some ctor => ctor v
           | None => None
           end
  | _ => None
  end.

(** A property of [data] and what [cast] makes of it: the same field, the
    value converted. *)
Definition cast_of (ObjectId : V -> option V) (paths : Paths)
  (a b : Field * V) : Prop :=
  fst b = fst a /\ converted ObjectId paths (fst a) (snd a) = Some (snd b).

End Values.

End Casting.

(** ** Creating, updating, reading and removing records *)

Module Crud.

(** What [utils.diff] returns: per changed field the old and the new
    value. *)
Definition Changes := list (Field * option Z * option Z).

(** [ctx.model], each method seen as the function from its arguments to
    what it calls back with; [findOneAndUpdate] and [findOne] call back with
    [null] ([None]) when no record matches, and [remove] with a report whose
    [n] counts the records removed. *)
Record Model := {
  modelName : string;
  model_create : Row -> Err + Row;
  model_findOneAndUpdate : Query -> Row -> Err + option Row;
  model_findOne : Query -> Err + option Row;
  model_remove : Query -> Err + Obj Z
}.

(** [ctx], as these four operations read it. *)
Record Context := {
  validated : bool;
  data : Row;
  query : Query;
  found : Row;
  model : Model
}.

(** The object [updated] serialises into the message body. *)
Record Payload := {
  payload_id : option Z;
  payload_action : string;
  payload_updated : Changes;
  payload_model : string
}.

(** The parameters of [sendMessage]. *)
Record Message := {
  MessageBody : string;
  QueueUrl : option string;
  MessageGroupId : string;
  MessageDeduplicationId : string
}.

(** The modules the operations require: [validators.model[name]], [utils]
    ([json], [visibles], [diff], [uuid] by the number of identifiers drawn
    before, [stringify], [queue], and the two calls made on [sqs()]) and
    [errors.notFound]. *)
Record Services := {
  validator : string -> Context -> Err + Context;
  json : Row -> Row;
  visibles : Context -> Row -> Err + Row;
  diff_of : Row -> Row -> Changes;
  uuid : nat -> string;
  stringify : Payload -> string;
  queue : string -> string;
  getQueueUrl : string -> Err + option string;
  sendMessage : Message -> option Err;
  notFound : Err
}.

(** What a call does to the outside. *)
Inductive Event : Type :=
| Create (data : Row)
| FindOneAndUpdate (q : Query) (data : Row)
| FindOne (q : Query)
| Remove (q : Query)
| GetQueueUrl (name : string)
| SendMessage (m : Message).

(** The state of the module of [src/index.js] and of the outside: the
    variable [modelUpdatesQueueUrl], the number of identifiers drawn from
    [utils.uuid], and the events so far, latest last. *)
Record World := {
  modelUpdatesQueueUrl : option string;
  drawn : nat;
  events : list Event
}.

(** What [done] is called with: an error or none, and a value or none. *)
Record Reply (A : Type) := {
  reply_err : option Err;
  reply_value : option A
}.

Arguments reply_err {A} _.
Arguments reply_value {A} _.

Definition log (e : Event) (w : World) : World :=
  {| modelUpdatesQueueUrl := modelUpdatesQueueUrl w;
     drawn := drawn w;
     events := events w ++ [e] |}.

(** Truthiness of a string that may be [undefined]. *)
Definition truthy_string (s : option string) : bool :=
  match s with
  | Some EmptyString => false
  | Some _ => true
  | None => false
  end.

(** [validate(name, ctx, done)] *)
Definition validate (S : Services) (name : string) (ctx : Context)
  : Err + Context :=
  if validated ctx then inr ctx else validator S name ctx.

(** [diff(found, updated)] *)
Definition diff (S : Services) (found updated : Row) : Changes :=
  diff_of S (json S found) (json S updated).

(** [findModelUpdatesQueueUrl(done)]: the world it leaves and what [done]
    gets, an error or the queue URL (which the service may leave
    [undefined]). *)
Definition findModelUpdatesQueueUrl (S : Services) (w : World)
  : World * (Err + option string) :=
  if truthy_string (modelUpdatesQueueUrl w) then
    (w, inr (modelUpdatesQueueUrl w))
  else
    let name := (queue S "model-updates" ++ ".fifo")%string in
    let w := log (GetQueueUrl name) w in
    match getQueueUrl S name with
    | inl err => (w, inl err)
    | inr url =>
        ({| modelUpdatesQueueUrl := url; drawn := drawn w;
            events := events w |},
         inr url)
    end.

(** [updated(ctx, id, action, changes, done)]: the world it leaves and the
    error [done] gets, if any. *)
Definition updated (S : Services) (ctx : Context) (id : option Z)
  (action : string) (changes : Changes) (w : World) : World * option Err :=
  let data := {| payload_id := id; payload_action := action;
                 payload_updated := changes;
                 payload_model := modelName (model ctx) |} in
  match findModelUpdatesQueueUrl S w with
  | (w, inl err) => (w, Some err)
  | (w, inr queueUrl) =>
      let mid := uuid S (drawn w) in
      let m := {| MessageBody := stringify S data;
                  QueueUrl := queueUrl;
                  MessageGroupId := mid;
                  MessageDeduplicationId := mid |} in
      (log (SendMessage m)
         {| modelUpdatesQueueUrl := modelUpdatesQueueUrl w;
            drawn := Datatypes.S (drawn w);
            events := events w |},
       sendMessage S m)
  end.

(** [exports.create] of [src/index.js] *)
Definition create (S : Services) (ctx0 : Context) (w : World)
  : World * Reply Row :=
  match validate S "create" ctx0 with
  | inl err => (w, {| reply_err := Some err; reply_value := None |})
  | inr ctx =>
      let w := log (Create (data ctx)) w in
      match model_create (model ctx) (data ctx) with
      | inl err => (w, {| reply_err := Some err; reply_value := None |})
      | inr o =>
          let (w, err) :=
            updated S ctx (prop_get "id" o) "create" (diff S [] o) w in
          (w, {| reply_err := err; reply_value := Some o |})
      end
  end.

(** [exports.update] of [src/index.js] *)
Definition update (S : Services) (ctx0 : Context) (w : World)
  : World * Reply Row :=
  match validate S "update" ctx0 with
  | inl err => (w, {| reply_err := Some err; reply_value := None |})
  | inr ctx =>
      let w := log (FindOneAndUpdate (query ctx) (data ctx)) w in
      match model_findOneAndUpdate (model ctx) (query ctx) (data ctx) with
      | inl err => (w, {| reply_err := Some err; reply_value := None |})
      | inr None =>
          (w, {| reply_err := Some (notFound S); reply_value := None |})
      | inr (Some o) =>
          let (w, err) :=
            updated S ctx (prop_get "id" o) "update"
              (diff S (found ctx) o) w in
          (w, {| reply_err := err; reply_value := Some o |})
      end
  end.

(** [exports.findOne] of [src/index.js] *)
Definition findOne (S : Services) (ctx0 : Context) (w : World)
  : World * Reply Row :=
  match validate S "findOne" ctx0 with
  | inl err => (w, {| reply_err := Some err; reply_value := None |})
  | inr ctx =>
      let w := log (FindOne (query ctx)) w in
      match model_findOne (model ctx) (query ctx) with
      | inl err => (w, {| reply_err := Some err; reply_value := None |})
      | inr None =>
          (w, {| reply_err := Some (notFound S); reply_value := None |})
      | inr (Some o) =>
          match visibles S ctx (json S o) with
          | inl err => (w, {| reply_err := Some err; reply_value := None |})
          | inr o' => (w, {| reply_err := None; reply_value := Some o' |})
          end
      end
  end.

(** [exports.remove], the same in both files; the value is the report of
    the store. *)
Definition remove (S : Services) (ctx0 : Context) (w : World)
  : World * Reply (Obj Z) :=
  match validate S "remove" ctx0 with
  | inl err => (w, {| reply_err := Some err; reply_value := None |})
  | inr ctx =>
      let w := log (Remove (query ctx)) w in
      match model_remove (model ctx) (query ctx) with
      | inl err => (w, {| reply_err := Some err; reply_value := None |})
      | inr o =>
          if negb (truthy (prop_get "n" o)) then
            (w, {| reply_err := Some (notFound S); reply_value := None |})
          else (w, {| reply_err := None; reply_value := Some o |})
      end
  end.

(** [exports.create] of [src/unnamed/part_000] *)
Definition plain_create (S : Services) (ctx0 : Context) (w : World)
  : World * Reply Row :=
  match validate S "create" ctx0 with
  | inl err => (w, {| reply_err := Some err; reply_value := None |})
  | inr ctx =>
      let w := log (Create (data ctx)) w in
      match model_create (model ctx) (data ctx) with
      | inl err => (w, {| reply_err := Some err; reply_value := None |})
      | inr o => (w, {| reply_err := None; reply_value := Some o |})
      end
  end.

(** [exports.update] of [src/unnamed/part_000] *)
Definition plain_update (S : Services) (ctx0 : Context) (w : World)
  : World * Reply Row :=
  match validate S "update" ctx0 with
  | inl err => (w, {| reply_err := Some err; reply_value := None |})
  | inr ctx =>
      let w := log (FindOneAndUpdate (query ctx) (data ctx)) w in
      match model_findOneAndUpdate (model ctx) (query ctx) (data ctx) with
      | inl err => (w, {| reply_err := Some err; reply_value := None |})
      | inr None =>
          (w, {| reply_err := Some (notFound S); reply_value := None |})
      | inr (Some o) => (w, {| reply_err := None; reply_value := Some o |})
      end
  end.

(** [exports.findOne] of [src/unnamed/part_000] *)
Definition plain_findOne (S : Services) (ctx0 : Context) (w : World)
  : World * Reply Row :=
  match validate S "findOne" ctx0 with
  | inl err => (w, {| reply_err := Some err; reply_value := None |})
  | inr ctx =>
      let w := log (FindOne (query ctx)) w in
      match model_findOne (model ctx) (query ctx) with
      | inl err => (w, {| reply_err := Some err; reply_value := None |})
      | inr None =>
          (w, {| reply_err := Some (notFound S); reply_value := None |})
      | inr (Some o) => (w, {| reply_err := None; reply_value := Some o |})
      end
  end.

(** The events of publishing a change: the queue lookup and the message. *)
Definition is_publishing (e : Event) : bool :=
  match e with
  | GetQueueUrl _ | SendMessage _ => true
  | _ => false
  end.

Definition is_message (e : Event) : bool :=
  match e with
  | SendMessage _ => true
  | _ => false
  end.

(** The name [findModelUpdatesQueueUrl] looks the queue up by. *)
Definition queue_name (S : Services) : string :=
  (queue S "model-updates" ++ ".fifo")%string.

(** The message [updated] sends to the queue at [url] when [n] identifiers
    were drawn before. *)
Definition message (S : Services) (ctx : Context) (id : option Z)
  (action : string) (changes : Changes) (url : option string) (n : nat)
  : Message :=
  {| MessageBody :=
       stringify S {| payload_id := id; payload_action := action;
                      payload_updated := changes;
                      payload_model := modelName (model ctx) |};
     QueueUrl := url;
     MessageGroupId := uuid S n;
     MessageDeduplicationId := uuid S n |}.

(** A model holding no record but able to create the one it is given, with
    the identifier 7; services that validate nothing, show every field, and
    reach a queue. *)
Definition sample_model : Model :=
  {| modelName := "items";
     model_create := fun data => inr (("id", 7) :: data);
     model_findOneAndUpdate := fun _ _ => inr None;
     model_findOne := fun _ => inr None;
     model_remove := fun _ => inr [("n", 0)] |}.

Definition sample_context : Context :=
  {| validated := true;
     data := [("price", 3)];
     query := fun _ => true;
     found := [];
     model := sample_model |}.

Definition sample_services : Services :=
  {| validator := fun _ ctx => inr ctx;
     json := fun o => o;
     visibles := fun _ o => inr o;
     diff_of := fun a b => [];
     uuid := fun n => String (Ascii.ascii_of_nat (65 + n)) EmptyString;
     stringify := fun p => payload_action p;
     queue := fun name => name;
     getQueueUrl := fun _ => inr (Some "https://queue");
     sendMessage := fun _ => Some "queue is down";
     notFound := "not found" |}.

(** The same services without a queue to find. *)
Definition offline_services : Services :=
  {| validator := validator sample_services;
     json := json sample_services;
     visibles := visibles sample_services;
     diff_of := diff_of sample_services;
     uuid := uuid sample_services;
     stringify := stringify sample_services;
     queue := queue sample_services;
     getQueueUrl := fun _ => inl "no such queue";
     sendMessage := sendMessage sample_services;
     notFound := notFound sample_services |}.

Definition fresh : World :=
  {| modelUpdatesQueueUrl := None; drawn := 0; events := [] |}.

End Crud.

(** * Properties *)

(** ** Lists and rows *)

Lemma last_of_snoc (l : list Row) (x : Row) : last_of (l ++ [x]) = Some x.
Proof.
  unfold last_of. destruct (l ++ [x]) eqn:H.
  - destruct l; discriminate.
  - rewrite <- H. now rewrite last_last.
Qed.

Lemma pop_snoc (l : list Row) (x : Row) : pop (l ++ [x]) = (Some x, l).
Proof. unfold pop. now rewrite last_of_snoc, removelast_last. Qed.

Lemma snoc_of_length (l : list Row) (n : Z) :
  0 <= n -> Z.of_nat (List.length l) = n + 1 ->
  exists kept removed, l = kept ++ [removed] /\ Z.of_nat (List.length kept) = n.
Proof.
  intros Hn Hl. destruct (exists_last (l := l)) as (kept & removed & ->).
  - intros ->. simpl in Hl. lia.
  - exists kept, removed. split; [reflexivity|].
    rewrite length_app in Hl. simpl in Hl. lia.
Qed.

Lemma cursor_some (index : SortSpec) (r : Row) :
  cursor index (Some r) = Some (cursor_at index r).
Proof. now destruct index. Qed.

Lemma each_series_length (f : Row -> Err + Row) (oo ooo : list Row) :
  Index.each_series f oo = inr ooo -> List.length ooo = List.length oo.
Proof.
  revert ooo. induction oo as [|o oo IH]; simpl; intros ooo H.
  - now inversion H.
  - destruct (f o); [discriminate|].
    destruct (Index.each_series f oo); [discriminate|].
    inversion H; subst. simpl. now rewrite (IH l).
Qed.

Lemma prop_get_set {A : Type} (k : Field) (v : A) (o : Obj A) :
  prop_get k (prop_set k v o) = Some v.
Proof.
  induction o as [|[k' v'] o IH]; cbn [prop_set prop_get].
  - now rewrite String.eqb_refl.
  - destruct (String.eqb k k') eqn:Hk; cbn [prop_get].
    + now rewrite String.eqb_refl.
    + now rewrite Hk.
Qed.

(** The closure [filter] never drops a field: [visibility] is switched on in
    every projection it is given. *)
Lemma filter_keeps (search : Search) (o : Row) :
  Index.filter (Index.projection search) o = o.
Proof.
  unfold Index.filter, Index.projection.
  destruct (search_fields search) as [fs|]; [|reflexivity].
  now rewrite prop_get_set.
Qed.

(** ** The resolver (C4) *)

(** [invert] says whether [natural] and "the primary order is 1" disagree. *)
Lemma resolve_invert (search : Search) :
  Index.r_invert (Index.resolve search)
  = negb (Bool.eqb (Index.r_natural (Index.resolve search))
            (is_one (Index.r_order (Index.resolve search)))).
Proof.
  unfold Index.resolve.
  destruct (is_one (primary_order (search_sort search))) eqn:Ho; simpl;
    rewrite Ho;
    destruct (is_one (js_or (search_direction search)
                        (primary_order (search_sort search))));
    reflexivity.
Qed.

(** The sorter is the sort, negated when [invert] holds. *)
Lemma resolve_sorter (search : Search) :
  Index.r_sorter (Index.resolve search)
  = if Index.r_invert (Index.resolve search)
    then invert (search_sort search) else search_sort search.
Proof.
  unfold Index.resolve.
  destruct (is_one (primary_order (search_sort search))); simpl;
    destruct (is_one (js_or (search_direction search)
                        (primary_order (search_sort search))));
    reflexivity.
Qed.

(** C4, counterexample. With an ascending sort and direction -1 the scan is
    not natural, yet the hint is the sort itself and not its negation; and
    with a descending sort and no direction, the direction defaults to the
    primary order -1 and equals it, yet the scan is not natural. *)
Lemma resolve_hint_not_negated :
  let up := {| search_query := Scenario.all;
               search_sort := [("field", 1); ("_id", 1)];
               search_count := 2; search_cursor := None;
               search_direction := Some (-1); search_fields := None |} in
  let down := {| search_query := Scenario.all;
                 search_sort := [("field", -1); ("_id", -1)];
                 search_count := 2; search_cursor := None;
                 search_direction := None; search_fields := None |} in
  (Index.r_natural (Index.resolve up) = false
   /\ Index.r_hint (Index.resolve up) = search_sort up
   /\ Index.r_hint (Index.resolve up) <> invert (search_sort up))
  /\ (Index.r_direction (Index.resolve down) = Index.r_order (Index.resolve down)
      /\ Index.r_natural (Index.resolve down) = false
      /\ Index.r_sorter (Index.resolve down) = search_sort down
      /\ Index.r_sorter (Index.resolve down) <> invert (search_sort down)).
Proof.
  cbv zeta. repeat split; try reflexivity; vm_compute; discriminate.
Qed.

(** With a primary order of 1 or -1, the hint starts with an ascending
    field. *)
Lemma hint_ascending (sort : SortSpec) :
  unit_order (primary_order sort) ->
  primary_order (if is_one (primary_order sort) then sort else invert sort)
  = Some 1.
Proof.
  destruct sort as [|[f o] sort']; [intros [H|H]; discriminate|].
  assert (Ho : primary_order ((f, o) :: sort') = Some o).
  { unfold primary_order, first. cbn [prop_get]. now rewrite String.eqb_refl. }
  rewrite Ho. intros [H|H]; injection H as ->; cbn [is_one Z.eqb Pos.eqb].
  - exact Ho.
  - unfold primary_order, first, invert. cbn [map fst snd prop_get].
    now rewrite String.eqb_refl.
Qed.

(** C4, amended. For every search, [natural] is [direction === 1], the
    direction defaulting to the primary field's order; the hint is the sort
    when the primary order is 1 and the sort negated field by field
    otherwise; [invert] tells whether [natural] and "primary order is 1"
    disagree; the sorter is the negated sort when [invert] holds and the sort
    otherwise. These are the hint and sort of the store query. When the
    primary order is 1 or -1, the hint's primary field is ascending, and,
    for a direction that is absent, 1 or -1, [invert] holds exactly when the
    direction, after defaulting, differs from the primary order. *)
Theorem resolve_spec (search : Search) :
  let sort := search_sort search in
  let R := Index.resolve search in
  Index.r_order R = primary_order sort
  /\ Index.r_direction R = js_or (search_direction search) (primary_order sort)
  /\ Index.r_natural R = is_one (Index.r_direction R)
  /\ Index.r_hint R = (if is_one (Index.r_order R) then sort else invert sort)
  /\ Index.r_invert R
     = negb (Bool.eqb (Index.r_natural R) (is_one (Index.r_order R)))
  /\ Index.r_sorter R = (if Index.r_invert R then invert sort else sort)
  /\ q_hint (Index.store_query search) = Index.r_hint R
  /\ q_sort (Index.store_query search) = Index.r_sorter R
  /\ (unit_order (primary_order sort) ->
      primary_order (Index.r_hint R) = Some 1)
  /\ (unit_order (primary_order sort) ->
      search_direction search = None \/ unit_order (search_direction search) ->
      (Index.r_invert R = true <-> Index.r_direction R <> primary_order sort)).
Proof.
  cbv zeta.
  assert (Hhint : Index.r_hint (Index.resolve search)
                  = if is_one (primary_order (search_sort search))
                    then search_sort search else invert (search_sort search)).
  { unfold Index.resolve.
    now destruct (is_one (primary_order (search_sort search))). }
  assert (Hdir : Index.r_direction (Index.resolve search)
                 = js_or (search_direction search)
                     (primary_order (search_sort search))).
  { unfold Index.resolve.
    now destruct (is_one (primary_order (search_sort search))). }
  assert (Hnat : Index.r_natural (Index.resolve search)
                 = is_one (js_or (search_direction search)
                             (primary_order (search_sort search)))).
  { unfold Index.resolve.
    now destruct (is_one (primary_order (search_sort search))). }
  assert (Hord : Index.r_order (Index.resolve search)
                 = primary_order (search_sort search)).
  { unfold Index.resolve.
    now destruct (is_one (primary_order (search_sort search))). }
  split; [exact Hord|]. split; [exact Hdir|].
  split; [now rewrite Hnat, Hdir|].
  split; [now rewrite Hhint, Hord|].
  split; [apply resolve_invert|].
  split; [apply resolve_sorter|].
  split; [reflexivity|]. split; [reflexivity|].
  split.
  - intros Hunit. rewrite Hhint. now apply hint_ascending.
  - intros Hunit Hd. rewrite resolve_invert, Hnat, Hord, Hdir.
    destruct Hunit as [-> | ->];
      destruct Hd as [-> | [-> | ->]]; cbn; split;
      solve [ discriminate | congruence | intros _; discriminate
            | intros H; exfalso; apply H; reflexivity ].
Qed.

(** C4, witness: the descending sort of the scenario asked for upwards. The
    hint is the negated sort, which starts ascending, and the scan inverts. *)
Lemma resolve_spec_witness :
  let search := {| search_query := Scenario.all;
                   search_sort := Scenario.descending;
                   search_count := 2; search_cursor := None;
                   search_direction := Some 1; search_fields := None |} in
  Index.r_hint (Index.resolve search) = [("field", 1); ("_id", 1)]
  /\ primary_order (Index.r_hint (Index.resolve search)) = Some 1
  /\ (Index.r_invert (Index.resolve search) = true
      <-> Index.r_direction (Index.resolve search)
          <> primary_order Scenario.descending).
Proof.
  cbv zeta.
  pose proof (resolve_spec
                {| search_query := Scenario.all;
                   search_sort := Scenario.descending;
                   search_count := 2; search_cursor := None;
                   search_direction := Some 1; search_fields := None |})
    as (_ & _ & _ & _ & _ & _ & _ & _ & Hhint & Hinv).
  split; [reflexivity|]. split.
  - apply Hhint. right. reflexivity.
  - apply Hinv; [right; reflexivity | right; left; reflexivity].
Defined.


(** ** One call of [find] *)

(** A call that passes validation issues the store query and goes on from
    what the store calls back with. *)
Lemma find_validated (E : Externals) (ctx ctx' : Ctx) :
  validate E "find" ctx = inr ctx' ->
  Index.find E ctx =
  {| issued := [Index.store_query (ctx_search ctx')];
     outcome :=
       match ctx_model ctx' (Index.store_query (ctx_search ctx')) with
       | inl err => Failed err
       | inr oo =>
           match Index.sides (ctx_queried ctx') (ctx_search ctx')
                   (Index.r_hint (Index.resolve (ctx_search ctx')))
                   (Index.r_natural (Index.resolve (ctx_search ctx')))
                   (search_count (ctx_search ctx') + 1) oo with
           | None => Threw
           | Some (lft, rgt, kept) =>
               match Index.each_series (post E ctx')
                       (if Index.r_invert (Index.resolve (ctx_search ctx'))
                        then rev kept else kept) with
               | inl err => Failed err
               | inr ooo =>
                   Found ooo
                     (Index.place
                        (Index.r_order (Index.resolve (ctx_search ctx')))
                        lft rgt)
               end
           end
       end |}.
Proof.
  intros Hv. unfold Index.find. now rewrite Hv.
Qed.

(** What [sides] returns when the store gave exactly [count + 1] rows. *)
Lemma sides_full (queried : Query) (search : Search) (hint : SortSpec)
  (natural : bool) (kept : list Row) (removed : Row) :
  Z.of_nat (List.length (kept ++ [removed])) = search_count search + 1 ->
  Index.sides queried search hint natural (search_count search + 1)
    (kept ++ [removed]) =
  if natural then
    Some (match search_cursor search with
          | Some c => Some {| link_query := queried;
                              link_sort := search_sort search;
                              link_cursor := c; link_direction := -1 |}
          | None => None
          end,
          Some {| link_query := queried; link_sort := search_sort search;
                  link_cursor := cursor_at hint removed;
                  link_direction := 1 |},
          kept)
  else
    match cursor hint (last_of kept) with
    | Some c =>
        Some (Some {| link_query := queried; link_sort := search_sort search;
                      link_cursor := c; link_direction := -1 |},
              match search_cursor search with
              | Some c => Some {| link_query := queried;
                                  link_sort := search_sort search;
                                  link_cursor := c; link_direction := 1 |}
              | None => None
              end,
              kept)
    | None => None
    end.
Proof.
  intros Hl. unfold Index.sides.
  apply Z.eqb_eq in Hl. rewrite Hl, pop_snoc.
  destruct natural; [now rewrite cursor_some|reflexivity].
Qed.

(** What [sides] returns when the store gave another number of rows. *)
Lemma sides_short (queried : Query) (search : Search) (hint : SortSpec)
  (natural : bool) (count : Z) (oo : list Row) :
  Z.of_nat (List.length oo) <> count ->
  Index.sides queried search hint natural count oo =
  Some (if natural then
          match search_cursor search with
          | Some c => Some {| link_query := queried;
                              link_sort := search_sort search;
                              link_cursor := c; link_direction := -1 |}
          | None => None
          end
        else None,
        if natural then None
        else
          match search_cursor search with
          | Some c => Some {| link_query := queried;
                              link_sort := search_sort search;
                              link_cursor := c; link_direction := 1 |}
          | None => None
          end,
        oo).
Proof.
  intros Hl. unfold Index.sides.
  apply Z.eqb_neq in Hl. rewrite Hl. now destruct natural.
Qed.

(** ** The overflow row (C3) *)

(** C3, counterexample. Scanning down from a cursor past the last record with
    page size 2, the store returns the three rows 5, 4, 3; the row 3 is
    removed, and the cursor of the link that continues the scan holds 4, the
    value of the last row kept, not the value 3 of the removed row. *)
Lemma backward_cursor_is_last_kept_row :
  let ctx := follow Scenario.page1 (Scenario.link 6 (-1)) in
  ctx_model ctx (Index.store_query (ctx_search ctx))
  = inr [Scenario.record 5; Scenario.record 4; Scenario.record 3]
  /\ Index.r_natural (Index.resolve (ctx_search ctx)) = false
  /\ outcome (Index.find Scenario.plain ctx)
     = Found [Scenario.record 4; Scenario.record 5]
         {| last := Some (Scenario.link 4 (-1));
            next := Some (Scenario.link 6 1) |}
  /\ cursor_at (Index.r_hint (Index.resolve (ctx_search ctx)))
       (Scenario.record 3) = [("field", Some 3)]
  /\ link_cursor (Scenario.link 4 (-1))
     <> cursor_at (Index.r_hint (Index.resolve (ctx_search ctx)))
          (Scenario.record 3).
Proof.
  cbv zeta. repeat split; try reflexivity. vm_compute. discriminate.
Qed.

(** C3, amended. When the store returns exactly [count + 1] rows for a
    request of positive page size, the last fetched row is removed and
    [count] records are returned. In a natural scan the link that continues
    the scan carries the cursor built from the removed row's hint fields; in
    a scan that is not natural it carries the cursor built from the last row
    that is kept. *)
Theorem overflow_row_trimmed (E : Externals) (ctx ctx' : Ctx)
  (oo records : list Row) (paging : Paging) :
  validate E "find" ctx = inr ctx' ->
  1 <= search_count (ctx_search ctx') ->
  ctx_model ctx' (Index.store_query (ctx_search ctx')) = inr oo ->
  Z.of_nat (List.length oo) = search_count (ctx_search ctx') + 1 ->
  outcome (Index.find E ctx) = Found records paging ->
  exists kept removed,
    oo = kept ++ [removed]
    /\ Z.of_nat (List.length records) = search_count (ctx_search ctx')
    /\ Index.each_series (post E ctx')
         (if Index.r_invert (Index.resolve (ctx_search ctx'))
          then rev kept else kept) = inr records
    /\ if Index.r_natural (Index.resolve (ctx_search ctx')) then
         (if is_one (Index.r_order (Index.resolve (ctx_search ctx')))
          then next paging else last paging)
         = Some (link_of ctx'
                   (cursor_at (Index.r_hint (Index.resolve (ctx_search ctx')))
                      removed) 1)
       else
         exists kept' prev,
           kept = kept' ++ [prev]
           /\ (if is_one (Index.r_order (Index.resolve (ctx_search ctx')))
               then last paging else next paging)
              = Some (link_of ctx'
                        (cursor_at
                           (Index.r_hint (Index.resolve (ctx_search ctx')))
                           prev) (-1)).
Proof.
  intros Hv Hc Hs Hl Hf.
  rewrite (find_validated _ _ _ Hv) in Hf. cbn [outcome] in Hf.
  rewrite Hs in Hf.
  destruct (snoc_of_length oo (search_count (ctx_search ctx')))
    as (kept & removed & -> & Hk); [lia|assumption|].
  rewrite sides_full in Hf by assumption.
  exists kept, removed. split; [reflexivity|].
  destruct (Index.r_natural (Index.resolve (ctx_search ctx'))) eqn:Hn.
  - destruct (Index.each_series _ _) as [err|ooo] eqn:He; [discriminate|].
    inversion Hf; subst; clear Hf.
    split; [|split; [reflexivity|]].
    + apply each_series_length in He. rewrite He.
      destruct (Index.r_invert _); rewrite ?length_rev; exact Hk.
    + unfold Index.place.
      destruct (is_one (Index.r_order _)); reflexivity.
  - destruct (snoc_of_length kept (search_count (ctx_search ctx') - 1))
      as (kept' & prev & -> & _); [lia|lia|].
    rewrite last_of_snoc, cursor_some in Hf.
    destruct (Index.each_series _ _) as [err|ooo] eqn:He; [discriminate|].
    inversion Hf; subst; clear Hf.
    split; [|split; [reflexivity|]].
    + apply each_series_length in He. rewrite He.
      destruct (Index.r_invert _); rewrite ?length_rev; exact Hk.
    + exists kept', prev. split; [reflexivity|].
      unfold Index.place.
      destruct (is_one (Index.r_order _)); reflexivity.
Qed.

(** C3, witness: the first page of the scenario, three rows fetched. *)
Lemma overflow_row_trimmed_witness :
  exists kept removed,
    map Scenario.record [1; 2; 3] = kept ++ [removed]
    /\ Z.of_nat (List.length (map Scenario.record [1; 2])) = 2
    /\ Index.each_series (post Scenario.plain Scenario.page1) kept
       = inr (map Scenario.record [1; 2])
    /\ Some (Scenario.link 3 1)
       = Some (link_of Scenario.page1
                 (cursor_at Scenario.ascending removed) 1).
Proof.
  apply (overflow_row_trimmed Scenario.plain Scenario.page1 Scenario.page1
           (map Scenario.record [1; 2; 3]) (map Scenario.record [1; 2])
           {| last := None; next := Some (Scenario.link 3 1) |});
    [reflexivity | vm_compute; discriminate | reflexivity | reflexivity
    | reflexivity].
Defined.

(** ** The range bound (C5) *)





(** Under MongoDB's reading of [max], scanning down from the cursor 3 of the
    scenario, the record whose key equals the cursor is not let through, and
    the store returns the records 2 and 1. *)
Remark mongo_max_excludes_the_cursor_row :
  let ctx := follow Scenario.page1 (Scenario.link 3 (-1)) in
  exists q,
    issued (Index.find Scenario.plain ctx) = [q]
    /\ q_options q = {| min := None; max := Some [("field", Some 3)] |}
    /\ Store.cmp_keys (q_hint q) (Store.row_key (Scenario.record 3))
         (Store.cursor_key [("field", Some 3)]) = Eq
    /\ q_find q (Scenario.record 3) = true
    /\ Store.admits false q (Scenario.record 3) = false
    /\ ctx_model ctx q = inr [Scenario.record 2; Scenario.record 1].
Proof.
  cbv zeta. eexists. repeat split; reflexivity.
Qed.

(** With an inclusive [max], following the [last] link of the second page of
    the scenario gives the records 2 and 3 and not the first page, and the
    walk down the descending sort visits the last record of each page
    twice; with MongoDB's [max] neither happens. *)
Remark closed_max_breaks_the_walk :
  outcome (Index.find Scenario.plain
             (Scenario.closed_store
                (follow Scenario.page1 (Scenario.link 3 (-1)))))
  = Found [Scenario.record 2; Scenario.record 3]
      {| last := Some (Scenario.link 2 (-1));
         next := Some (Scenario.link 3 1) |}
  /\ outcome (Index.find Scenario.plain
                (follow Scenario.page1 (Scenario.link 3 (-1))))
     = outcome (Index.find Scenario.plain Scenario.page1)
  /\ walk (Index.find Scenario.plain) 6
       (Scenario.closed_store (Scenario.request Scenario.descending 2))
     = Some (map Scenario.record [5; 4; 4; 3; 3; 2; 2; 1])
  /\ walk (Index.find Scenario.plain) 6
       (Scenario.request Scenario.descending 2)
     = Some (map Scenario.record [5; 4; 3; 2; 1]).
Proof. repeat split; reflexivity. Qed.



(** ** The links (C6) *)

(** C6. A page found for a request with a cursor carries the link back: the
    query recorded for the request ([ctx.queried]), the request's sort and
    the request's own cursor, with direction -1 after a natural scan and 1
    otherwise; it is [left] after a natural scan and [right] otherwise.
    [left] and [right] are what lines 283-320 compute; with primary order 1
    [next] is [right] and [last] is [left], with any other primary order
    [next] is [left] and [last] is [right]. *)
Theorem back_link_reuses_cursor (E : Externals) (ctx ctx' : Ctx)
  (c : Cursor) (records : list Row) (paging : Paging) :
  validate E "find" ctx = inr ctx' ->
  search_cursor (ctx_search ctx') = Some c ->
  outcome (Index.find E ctx) = Found records paging ->
  exists oo lft rgt kept,
    ctx_model ctx' (Index.store_query (ctx_search ctx')) = inr oo
    /\ Index.sides (ctx_queried ctx') (ctx_search ctx')
         (Index.r_hint (Index.resolve (ctx_search ctx')))
         (Index.r_natural (Index.resolve (ctx_search ctx')))
         (search_count (ctx_search ctx') + 1) oo = Some (lft, rgt, kept)
    /\ (if Index.r_natural (Index.resolve (ctx_search ctx'))
        then lft else rgt)
       = Some {| link_query := ctx_queried ctx';
                 link_sort := search_sort (ctx_search ctx');
                 link_cursor := c;
                 link_direction :=
                   if Index.r_natural (Index.resolve (ctx_search ctx'))
                   then -1 else 1 |}
    /\ (Index.r_order (Index.resolve (ctx_search ctx')) = Some 1 ->
        next paging = rgt /\ last paging = lft)
    /\ (Index.r_order (Index.resolve (ctx_search ctx')) <> Some 1 ->
        next paging = lft /\ last paging = rgt).
Proof.
  intros Hv Hc Hf.
  rewrite (find_validated _ _ _ Hv) in Hf. cbn [outcome] in Hf.
  destruct (ctx_model ctx' _) as [err|oo]; [discriminate|].
  destruct (Index.sides _ _ _ _ _ _) as [[[lft rgt] kept]|] eqn:Hs;
    [|discriminate].
  destruct (Index.each_series _ _) as [err|ooo]; [discriminate|].
  inversion Hf; subst; clear Hf.
  exists oo, lft, rgt, kept. split; [reflexivity|]. split; [exact Hs|].
  split.
  - unfold Index.sides in Hs. rewrite Hc in Hs.
    destruct (Index.r_natural (Index.resolve (ctx_search ctx')));
      destruct (Z.of_nat (List.length oo) =? _);
      cbn [pop fst snd] in Hs;
      repeat match type of Hs with
             | context [match cursor ?h ?o with _ => _ end] =>
                 destruct (cursor h o)
             end;
      inversion Hs; subst; reflexivity.
  - unfold Index.place. split.
    + intros Ho. rewrite Ho. cbn. now split.
    + intros Ho.
      destruct (Index.r_order (Index.resolve (ctx_search ctx'))) as [o|];
        cbn; [|now split].
      destruct (Z.eqb_spec o 1) as [->|]; [congruence|now split].
Qed.

(** C6, witness: the second page of the scenario. *)
Lemma back_link_reuses_cursor_witness :
  exists oo lft rgt kept,
    Store.mongo Scenario.db
      (Index.store_query
         (ctx_search (follow Scenario.page1 (Scenario.link 3 1)))) = inr oo
    /\ Index.sides Scenario.all
         (ctx_search (follow Scenario.page1 (Scenario.link 3 1)))
         Scenario.ascending true 3 oo = Some (lft, rgt, kept)
    /\ lft = Some (Scenario.link 3 (-1))
    /\ (Some 1 = Some 1 ->
        Some (Scenario.link 5 1) = rgt /\ Some (Scenario.link 3 (-1)) = lft)
    /\ (Some 1 <> Some 1 ->
        Some (Scenario.link 5 1) = lft /\ Some (Scenario.link 3 (-1)) = rgt).
Proof.
  exact (back_link_reuses_cursor Scenario.plain
           (follow Scenario.page1 (Scenario.link 3 1))
           (follow Scenario.page1 (Scenario.link 3 1))
           [("field", Some 3)] (map Scenario.record [3; 4])
           {| last := Some (Scenario.link 3 (-1));
              next := Some (Scenario.link 5 1) |}
           eq_refl eq_refl eq_refl).
Defined.

(** ** No matching rows (C8) *)

(** C8, counterexample. Scanning down from a cursor before the first record
    of the ascending scenario, the store returns no row; the empty page has
    no [last] link, and its [next] link is the one derived from the
    cursor. *)
Lemma empty_page_with_next :
  let ctx := follow Scenario.page1 (Scenario.link 0 (-1)) in
  ctx_model ctx (Index.store_query (ctx_search ctx)) = inr []
  /\ outcome (Index.find Scenario.plain ctx)
     = Found [] {| last := None; next := Some (Scenario.link 0 1) |}
  /\ next {| last := None; next := Some (Scenario.link 0 1) |} <> None.
Proof.
  cbv zeta. repeat split; try reflexivity. discriminate.
Qed.

(** C8, amended. When the store returns no row, [find] succeeds with an
    empty record list. If the scan runs in the order of the sort ([invert]
    is false), [next] is null and [last] is the link derived from the cursor,
    or null without cursor; if it runs against it ([invert] is true), [last]
    is null and [next] is the link derived from the cursor, or null without
    cursor. *)
Theorem empty_page (E : Externals) (ctx ctx' : Ctx) :
  validate E "find" ctx = inr ctx' ->
  ctx_model ctx' (Index.store_query (ctx_search ctx')) = inr [] ->
  search_count (ctx_search ctx') <> -1 ->
  outcome (Index.find E ctx) =
  Found []
    (if Index.r_invert (Index.resolve (ctx_search ctx')) then
       {| last := None;
          next := back_link ctx'
                    (Index.r_natural (Index.resolve (ctx_search ctx'))) |}
     else
       {| last := back_link ctx'
                    (Index.r_natural (Index.resolve (ctx_search ctx')));
          next := None |}).
Proof.
  intros Hv Hs Hc.
  rewrite (find_validated _ _ _ Hv). cbn [outcome]. rewrite Hs.
  rewrite sides_short by (simpl; lia).
  rewrite resolve_invert. unfold back_link, link_of, Index.place.
  destruct (Index.r_natural (Index.resolve (ctx_search ctx')));
    destruct (is_one (Index.r_order (Index.resolve (ctx_search ctx'))));
    destruct (search_cursor (ctx_search ctx')); reflexivity.
Qed.

(** C8, witness: the scan up from a cursor past the last record. *)
Lemma empty_page_witness :
  outcome (Index.find Scenario.plain
             (follow Scenario.page1 (Scenario.link 9 1)))
  = Found [] {| last := Some (Scenario.link 9 (-1)); next := None |}.
Proof.
  apply (empty_page Scenario.plain
           (follow Scenario.page1 (Scenario.link 9 1))
           (follow Scenario.page1 (Scenario.link 9 1)));
    [reflexivity | reflexivity | vm_compute; discriminate].
Defined.

(** ** Page size and the store (C9) *)

(** C9, counterexample. A validated request of page size 0 is not refused:
    the store is queried, with limit 1, and a page comes back. *)
Lemma count_zero_reaches_the_store :
  let ctx := Scenario.request Scenario.ascending 0 in
  search_count (ctx_search ctx) < 1
  /\ (exists q, issued (Index.find Scenario.plain ctx) = [q] /\ q_limit q = 1)
  /\ outcome (Index.find Scenario.plain ctx)
     = Found [] {| last := None; next := Some (Scenario.link 1 1) |}.
Proof.
  cbv zeta. split; [reflexivity|]. split; [|reflexivity].
  eexists. split; reflexivity.
Qed.

(** C9, amended. The one gate before the store is [validate]: when it
    reports an error, [find] ends with that error and no store query is
    issued; when it passes, as it does without looking for a context marked
    validated, exactly one store query is issued, for the filter of the
    request, whatever [count] is; its limit is [count + 1] when [count] is a
    safe integer, also when it is below 1. *)
Theorem validation_is_the_only_gate (E : Externals) (ctx : Ctx) :
  (forall err,
      validate E "find" ctx = inl err ->
      Index.find E ctx = {| issued := []; outcome := Failed err |})
  /\ (forall ctx',
         validate E "find" ctx = inr ctx' ->
         exists q,
           issued (Index.find E ctx) = [q]
           /\ q_find q = search_query (ctx_search ctx')
           /\ (safe_integer (search_count (ctx_search ctx')) = true ->
               q_limit q = search_count (ctx_search ctx') + 1))
  /\ (ctx_validated ctx = true -> validate E "find" ctx = inr ctx).
Proof.
  split; [|split].
  - intros err Hv. unfold Index.find. now rewrite Hv.
  - intros ctx' Hv. rewrite (find_validated _ _ _ Hv). cbn [issued].
    eexists. repeat split; reflexivity.
  - intros Hv. unfold validate. now rewrite Hv.
Qed.

(** C9, witness: the validated request of page size 0. *)
Lemma validation_is_the_only_gate_witness :
  exists q,
    issued (Index.find Scenario.plain (Scenario.request Scenario.ascending 0))
    = [q]
    /\ q_find q = Scenario.all
    /\ (safe_integer 0 = true -> q_limit q = 0 + 1).
Proof.
  exact (proj1 (proj2 (validation_is_the_only_gate Scenario.plain
                         (Scenario.request Scenario.ascending 0)))
           (Scenario.request Scenario.ascending 0) eq_refl).
Defined.

(** ** The scenario (C2) *)

(** C2, counterexample. The first page of the scenario is [1, 2], but the
    cursor of its [next] link holds 3, the value of the overflow row, not 2;
    a request resuming at the cursor 2 would return the records 2 and 3. *)
Lemma scenario_next_cursor_is_three :
  (exists l,
      outcome (Index.find Scenario.plain Scenario.page1)
      = Found (map Scenario.record [1; 2]) {| last := None; next := Some l |}
      /\ link_cursor l = [("field", Some 3)]
      /\ link_cursor l <> [("field", Some 2)])
  /\ records_of (outcome (Index.find Scenario.plain
                            (follow Scenario.page1 (Scenario.link 2 1))))
     = Some (map Scenario.record [2; 3]).
Proof.
  split; [|reflexivity].
  eexists. split; [reflexivity|]. split; [reflexivity|]. discriminate.
Qed.

(** C2, amended. Over the records with [field] 1 to 5, with page size 2 and
    the ascending single-field sort: page 1 is [1, 2], without [last] link
    and with the cursor [{field: 3}] in [next]; following it gives page 2,
    [3, 4], with the cursor [{field: 5}] in [next], and following the [last]
    link of page 2 gives page 1 again, records and links; following the
    [next] link of page 2 gives page 3, [5], without [next] link, and
    following its [last] link gives page 2 again. Both [find]s do so. *)
Theorem scenario_pages :
  let p1 := Scenario.page1 in
  let p2 := follow p1 (Scenario.link 3 1) in
  let p3 := follow p2 (Scenario.link 5 1) in
  let walks (find : Ctx -> Run) :=
    outcome (find p1)
    = Found (map Scenario.record [1; 2])
        {| last := None; next := Some (Scenario.link 3 1) |}
    /\ outcome (find p2)
       = Found (map Scenario.record [3; 4])
           {| last := Some (Scenario.link 3 (-1));
              next := Some (Scenario.link 5 1) |}
    /\ outcome (find (follow p2 (Scenario.link 3 (-1)))) = outcome (find p1)
    /\ outcome (find p3)
       = Found (map Scenario.record [5])
           {| last := Some (Scenario.link 5 (-1)); next := None |}
    /\ outcome (find (follow p3 (Scenario.link 5 (-1)))) = outcome (find p2)
  in
  walks (Index.find Scenario.plain) /\ walks (Part000.find Scenario.plain).
Proof.
  cbv zeta. repeat split; vm_compute; reflexivity.
Qed.

(** ** The order of keys *)

Section Keys.

Import Store.

Lemma cmp_value_refl (a : option Z) : cmp_value a a = Eq.
Proof. destruct a; simpl; [apply Z.compare_refl|reflexivity]. Qed.

Lemma cmp_value_eq (a b : option Z) : cmp_value a b = Eq -> a = b.
Proof.
  destruct a, b; simpl; try discriminate; [|reflexivity].
  intros H. apply Z.compare_eq in H. now subst.
Qed.

Lemma cmp_value_antisym (a b : option Z) :
  cmp_value b a = CompOpp (cmp_value a b).
Proof. destruct a, b; simpl; try reflexivity. apply Z.compare_antisym. Qed.

Lemma cmp_value_trans (a b c : option Z) (r : comparison) :
  cmp_value a b = r -> cmp_value b c = r -> cmp_value a c = r.
Proof.
  destruct r.
  - intros H1 H2. apply cmp_value_eq in H1, H2. subst. apply cmp_value_refl.
  - destruct a, b, c; simpl; try discriminate; try reflexivity.
    rewrite !Z.compare_lt_iff. lia.
  - destruct a, b, c; simpl; try discriminate; try reflexivity.
    rewrite !Z.compare_gt_iff. lia.
Qed.

Lemma cmp_keys_refl (index : SortSpec) (a : Field -> option Z) :
  cmp_keys index a a = Eq.
Proof.
  induction index as [|[f o] index IH]; simpl; [reflexivity|].
  now rewrite cmp_value_refl.
Qed.

Lemma cmp_keys_antisym (index : SortSpec) (a b : Field -> option Z) :
  cmp_keys index b a = CompOpp (cmp_keys index a b).
Proof.
  induction index as [|[f o] index IH]; simpl; [reflexivity|].
  rewrite (cmp_value_antisym (a f) (b f)).
  destruct (cmp_value (a f) (b f)); simpl; [exact IH| |];
    destruct (0 <? o); reflexivity.
Qed.

(** Keys that compare equal agree on every field of the pattern. *)
Lemma cmp_keys_eq (index : SortSpec) (a b : Field -> option Z) :
  cmp_keys index a b = Eq ->
  forall f, In f (map fst index) -> a f = b f.
Proof.
  induction index as [|[g o] index IH]; simpl; [tauto|].
  destruct (cmp_value (a g) (b g)) eqn:Hg.
  - intros H f [<-|Hf]; [now apply cmp_value_eq|now apply IH].
  - destruct (0 <? o); discriminate.
  - destruct (0 <? o); discriminate.
Qed.

(** The order looks at the fields of the pattern only. *)
Lemma cmp_keys_ext (index : SortSpec) (a a' b b' : Field -> option Z) :
  (forall f, In f (map fst index) -> a f = a' f) ->
  (forall f, In f (map fst index) -> b f = b' f) ->
  cmp_keys index a b = cmp_keys index a' b'.
Proof.
  induction index as [|[g o] index IH]; simpl; [reflexivity|].
  intros Ha Hb. rewrite (Ha g), (Hb g) by now left.
  rewrite IH; [reflexivity| |]; intros f Hf; [apply Ha|apply Hb]; now right.
Qed.

Lemma cmp_keys_eq_l (index : SortSpec) (a b c : Field -> option Z) :
  cmp_keys index a b = Eq -> cmp_keys index a c = cmp_keys index b c.
Proof.
  intros H. apply cmp_keys_ext; [now apply cmp_keys_eq|reflexivity].
Qed.

Lemma cmp_keys_eq_r (index : SortSpec) (a b c : Field -> option Z) :
  cmp_keys index b c = Eq -> cmp_keys index a b = cmp_keys index a c.
Proof.
  intros H. apply cmp_keys_ext; [reflexivity|now apply cmp_keys_eq].
Qed.

Lemma cmp_keys_trans (index : SortSpec) (a b c : Field -> option Z)
  (r : comparison) :
  cmp_keys index a b = r -> cmp_keys index b c = r -> cmp_keys index a c = r.
Proof.
  induction index as [|[f o] index IH]; simpl; [congruence|].
  destruct (cmp_value (a f) (b f)) eqn:Hab;
    destruct (cmp_value (b f) (c f)) eqn:Hbc.
  - rewrite (cmp_value_trans _ _ _ _ Hab Hbc). exact IH.
  - apply cmp_value_eq in Hab. rewrite Hab, Hbc. congruence.
  - apply cmp_value_eq in Hab. rewrite Hab, Hbc. congruence.
  - apply cmp_value_eq in Hbc. rewrite <- Hbc, Hab. congruence.
  - rewrite (cmp_value_trans _ _ _ _ Hab Hbc). congruence.
  - destruct (0 <? o); simpl; congruence.
  - apply cmp_value_eq in Hbc. rewrite <- Hbc, Hab. congruence.
  - destruct (0 <? o); simpl; congruence.
  - rewrite (cmp_value_trans _ _ _ _ Hab Hbc). congruence.
Qed.

(** Negating a pattern of orders 1 and -1 reverses the order of keys. *)
Lemma cmp_keys_invert (index : SortSpec) (a b : Field -> option Z) :
  key_pattern index = true ->
  cmp_keys (invert index) a b = CompOpp (cmp_keys index a b).
Proof.
  induction index as [|[f o] index IH]; simpl; [reflexivity|].
  intros H. apply andb_prop in H as [Ho H].
  assert (Hs : (0 <? o * -1) = negb (0 <? o)).
  { apply orb_prop in Ho as [Ho|Ho]; apply Z.eqb_eq in Ho; now subst. }
  rewrite Hs.
  destruct (cmp_value (a f) (b f)); [now apply IH| |];
    destruct (0 <? o); reflexivity.
Qed.

Lemma key_pattern_invert (index : SortSpec) :
  key_pattern index = true -> key_pattern (invert index) = true.
Proof.
  induction index as [|[f o] index IH]; simpl; [reflexivity|].
  intros H. apply andb_prop in H as [Ho H]. rewrite (IH H), andb_true_r.
  apply orb_prop in Ho as [Ho|Ho]; apply Z.eqb_eq in Ho; now subst.
Qed.

Lemma invert_invert (index : SortSpec) : invert (invert index) = index.
Proof.
  unfold invert. induction index as [|[f o] index IH]; simpl; [reflexivity|].
  rewrite IH. f_equal. f_equal. lia.
Qed.

Lemma leb_invert (index : SortSpec) (x y : Row) :
  key_pattern index = true -> leb (invert index) x y = leb index y x.
Proof.
  intros H. unfold leb.
  rewrite cmp_keys_invert, (cmp_keys_antisym index (row_key x) (row_key y))
    by assumption.
  reflexivity.
Qed.

End Keys.

(** ** Sorted lists *)

Section Sorted.

Context {A : Type} (R : A -> A -> Prop).

Lemma StronglySorted_app_inv (l1 l2 : list A) :
  StronglySorted R (l1 ++ l2) ->
  StronglySorted R l1 /\ StronglySorted R l2
  /\ Forall (fun x => Forall (R x) l2) l1.
Proof.
  induction l1 as [|a l1 IH]; simpl; intros H.
  - repeat split; [constructor|exact H|constructor].
  - apply StronglySorted_inv in H as [H Ha].
    destruct (IH H) as (H1 & H2 & H12).
    apply Forall_app in Ha as [Ha1 Ha2].
    repeat split; [now constructor|exact H2|now constructor].
Qed.

Lemma StronglySorted_app (l1 l2 : list A) :
  StronglySorted R l1 -> StronglySorted R l2 ->
  Forall (fun x => Forall (R x) l2) l1 ->
  StronglySorted R (l1 ++ l2).
Proof.
  induction l1 as [|a l1 IH]; simpl; intros H1 H2 H12; [exact H2|].
  apply StronglySorted_inv in H1 as [H1 Ha].
  apply Forall_cons_iff in H12 as [Ha2 H12].
  constructor; [now apply IH|].
  apply Forall_app. now split.
Qed.

Lemma StronglySorted_removelast (l : list A) :
  StronglySorted R l -> StronglySorted R (removelast l).
Proof.
  destruct l as [|x l]; [intros _; constructor|].
  destruct (exists_last (l := x :: l)) as (l' & a & E); [discriminate|].
  rewrite E. intros H. rewrite removelast_last.
  now apply StronglySorted_app_inv in H.
Qed.

End Sorted.

Lemma StronglySorted_weaken {A : Type} (R R' : A -> A -> Prop) (l : list A) :
  (forall x y, R x y -> R' x y) -> StronglySorted R l -> StronglySorted R' l.
Proof.
  intros HR. induction 1 as [|a l Hl IH Ha]; constructor; [exact IH|].
  revert Ha. apply Forall_impl. exact (HR a).
Qed.

Lemma StronglySorted_rev {A : Type} (R : A -> A -> Prop) (l : list A) :
  StronglySorted R l -> StronglySorted (fun x y => R y x) (rev l).
Proof.
  induction 1 as [|a l Hl IH Ha]; simpl; [constructor|].
  apply StronglySorted_app; [exact IH|repeat constructor|].
  apply Forall_rev. revert Ha. apply Forall_impl.
  intros x Hx. now constructor.
Qed.

Lemma each_series_Forall2 (f : Row -> Err + Row) (oo ooo : list Row) :
  Index.each_series f oo = inr ooo -> Forall2 (fun o r => f o = inr r) oo ooo.
Proof.
  revert ooo. induction oo as [|o oo IH]; simpl; intros ooo H.
  - inversion H. constructor.
  - destruct (f o) as [err|o'] eqn:Ho; [discriminate|].
    destruct (Index.each_series f oo) as [err|l]; [discriminate|].
    inversion H; subst. constructor; [exact Ho|now apply IH].
Qed.

(** [sides] keeps the fetched rows, or all of them but the last. *)
Lemma sides_kept (queried : Query) (search : Search) (hint : SortSpec)
  (natural : bool) (count : Z) (oo kept : list Row) (lft rgt : option Link) :
  Index.sides queried search hint natural count oo = Some (lft, rgt, kept) ->
  kept = oo \/ kept = removelast oo.
Proof.
  unfold Index.sides, pop. intros H.
  destruct natural; destruct (Z.of_nat (List.length oo) =? count);
    repeat match type of H with
           | context [match cursor ?h ?o with _ => _ end] =>
               destruct (cursor h o)
           end;
    inversion H; subst; auto.
Qed.

(** ** The order of the records (C7) *)

(** C7. When the store returns its rows in the order of the sorter, the rows
    of the page are in the order of the request's sort, whichever way the
    store scanned: the page is the kept rows reversed when [invert] holds and
    the kept rows as fetched when it does not, and the records returned are
    the rows of the page, each passed through the visibility filter, in that
    order. *)
Theorem records_in_requested_order (E : Externals) (ctx ctx' : Ctx)
  (oo records : list Row) (paging : Paging) :
  validate E "find" ctx = inr ctx' ->
  Store.key_pattern (search_sort (ctx_search ctx')) = true ->
  ctx_model ctx' (Index.store_query (ctx_search ctx')) = inr oo ->
  sorted_by (Index.r_sorter (Index.resolve (ctx_search ctx'))) oo ->
  outcome (Index.find E ctx) = Found records paging ->
  exists kept page,
    (kept = oo \/ kept = removelast oo)
    /\ page = (if Index.r_invert (Index.resolve (ctx_search ctx'))
               then rev kept else kept)
    /\ sorted_by (search_sort (ctx_search ctx')) page
    /\ Forall2 (fun o r => post E ctx' o = inr r) page records.
Proof.
  intros Hv Hp Hs Ho Hf.
  rewrite (find_validated _ _ _ Hv) in Hf. cbn [outcome] in Hf.
  rewrite Hs in Hf.
  destruct (Index.sides _ _ _ _ _ _) as [[[lft rgt] kept]|] eqn:Hk;
    [|discriminate].
  destruct (Index.each_series _ _) as [err|ooo] eqn:He; [discriminate|].
  inversion Hf; subst; clear Hf.
  exists kept, (if Index.r_invert (Index.resolve (ctx_search ctx'))
                then rev kept else kept).
  apply sides_kept in Hk.
  assert (Hkept : sorted_by (Index.r_sorter (Index.resolve (ctx_search ctx')))
                    kept).
  { destruct Hk as [->| ->]; [exact Ho|].
    now apply StronglySorted_removelast. }
  repeat split; [exact Hk| |now apply each_series_Forall2].
  rewrite resolve_sorter in Hkept.
  destruct (Index.r_invert (Index.resolve (ctx_search ctx'))); [|exact Hkept].
  apply StronglySorted_rev in Hkept. revert Hkept.
  apply StronglySorted_weaken. intros x y. now rewrite leb_invert.
Qed.

(** C7, witness: the scan down from a cursor past the last record, returned
    ascending. *)
Lemma records_in_requested_order_witness :
  exists kept page,
    (kept = map Scenario.record [5; 4; 3]
     \/ kept = removelast (map Scenario.record [5; 4; 3]))
    /\ page = rev kept
    /\ sorted_by Scenario.ascending page
    /\ Forall2 (fun o r => post Scenario.plain
                             (follow Scenario.page1 (Scenario.link 6 (-1))) o
                           = inr r)
         page (map Scenario.record [4; 5]).
Proof.
  apply (records_in_requested_order Scenario.plain
           (follow Scenario.page1 (Scenario.link 6 (-1)))
           (follow Scenario.page1 (Scenario.link 6 (-1)))
           (map Scenario.record [5; 4; 3]) (map Scenario.record [4; 5])
           {| last := Some (Scenario.link 4 (-1));
              next := Some (Scenario.link 6 1) |});
    [reflexivity | reflexivity | reflexivity | | reflexivity].
  repeat constructor.
Defined.

(** ** The two implementations (C10) *)

(** C10, counterexample. In a context whose recorded query [ctx.queried] is
    not the query [search.query] that is run, the two [find]s return the same
    records but different [next] links: the one of [src/index.js] carries the
    recorded query, the one of [src/unnamed/part_000] the query that ran. *)
Lemma finds_differ_in_link_query :
  exists li lp records,
    outcome (Index.find Scenario.plain Scenario.relabelled)
    = Found records {| last := None; next := Some li |}
    /\ outcome (Part000.find Scenario.plain Scenario.relabelled)
       = Found records {| last := None; next := Some lp |}
    /\ link_query li (Scenario.record 1) = false
    /\ link_query lp (Scenario.record 1) = true
    /\ li <> lp.
Proof.
  do 3 eexists. repeat split; try reflexivity.
  intros H. apply (f_equal (fun l => link_query l (Scenario.record 1))) in H.
  discriminate.
Qed.

(** C10, amended. For a request that passes validation and a store that
    answers the two store queries alike (they differ in the projection only,
    to which [src/index.js] adds [visibility]): when [find] of
    [src/unnamed/part_000] throws or fails, so does [find] of [src/index.js];
    when it finds rows and links, [find] of [src/index.js] returns these
    rows, each passed through the visibility filter, or the first error of
    that filter, and the same [last] and [next] links but for their query,
    which is [ctx.queried] instead of [search.query]. The links are the same
    when these two queries are. *)
Theorem finds_agree (E : Externals) (ctx ctx' : Ctx) (qi qp : StoreQuery) :
  validate E "find" ctx = inr ctx' ->
  issued (Index.find E ctx) = [qi] ->
  issued (Part000.find E ctx) = [qp] ->
  ctx_model ctx' qi = ctx_model ctx' qp ->
  (q_find qi = q_find qp /\ q_sort qi = q_sort qp /\ q_limit qi = q_limit qp
   /\ q_hint qi = q_hint qp /\ q_options qi = q_options qp
   /\ q_select qp = search_fields (ctx_search ctx')
   /\ q_select qi = Index.projection (ctx_search ctx'))
  /\ match outcome (Part000.find E ctx) with
     | Threw => outcome (Index.find E ctx) = Threw
     | Failed err => outcome (Index.find E ctx) = Failed err
     | Found rows paging =>
         match Index.each_series (post E ctx') rows with
         | inl err => outcome (Index.find E ctx) = Failed err
         | inr records =>
             outcome (Index.find E ctx)
             = Found records (paging_with_query (ctx_queried ctx') paging)
         end
         /\ (ctx_queried ctx' = search_query (ctx_search ctx') ->
             paging_with_query (ctx_queried ctx') paging = paging)
     end.
Proof.
  intros Hv Hi Hp Hm.
  rewrite (find_validated _ _ _ Hv) in Hi |- *. cbn [issued outcome] in Hi |- *.
  injection Hi as <-.
  unfold Part000.find in Hp |- *. rewrite Hv in Hp |- *.
  unfold Index.store_query, Index.resolve, Index.range in Hm |- *.
  destruct (is_one (primary_order (search_sort (ctx_search ctx')))) eqn:Ho;
    cbn [issued outcome Index.r_sorter Index.r_hint Index.r_natural
         Index.r_invert Index.r_order] in Hp, Hm |- *;
    injection Hp as <-; cbn [q_find q_sort q_limit q_hint q_options q_select];
    (split; [repeat split; reflexivity|]);
    rewrite Hm; clear Hm;
    match goal with
    | |- context [ctx_model ctx' ?q] =>
        destruct (ctx_model ctx' q) as [err|oo]; [reflexivity|]
    end;
    unfold Index.sides, Index.place, pop; cbn [fst snd]; rewrite ?Ho;
    destruct (is_one (js_or (search_direction (ctx_search ctx'))
                        (primary_order (search_sort (ctx_search ctx')))));
    destruct (Z.of_nat (List.length oo) =? search_count (ctx_search ctx') + 1);
    cbn [negb];
    repeat match goal with
           | |- context [match cursor ?h ?o with _ => _ end] =>
               destruct (cursor h o)
           end;
    try reflexivity;
    (split;
     [ match goal with
       | |- context [Index.each_series ?f ?l] =>
           destruct (Index.each_series f l); [reflexivity|]
       end;
       unfold paging_with_query; cbn [last next];
       destruct (search_cursor (ctx_search ctx')); reflexivity
     | intros ->; unfold paging_with_query; cbn [last next];
       destruct (search_cursor (ctx_search ctx')); reflexivity ]).
Qed.

(** C10, witness: the context whose recorded query is not the one run. *)
Lemma finds_agree_witness :
  outcome (Index.find Scenario.plain Scenario.relabelled)
  = Found (map Scenario.record [1; 2])
      (paging_with_query (fun _ => false)
         {| last := None; next := Some (Scenario.link 3 1) |}).
Proof.
  exact (proj1 (proj2 (finds_agree Scenario.plain Scenario.relabelled
                         Scenario.relabelled _ _ eq_refl eq_refl eq_refl
                         eq_refl))).
Defined.

(** ** Sorting in the store *)

Section SortRows.

Import Store.

Variable s : SortSpec.

Lemma leb_trans (x y z : Row) :
  leb s x y = true -> leb s y z = true -> leb s x z = true.
Proof.
  unfold leb.
  destruct (cmp_keys s (row_key x) (row_key y)) eqn:Hxy; try discriminate;
    destruct (cmp_keys s (row_key y) (row_key z)) eqn:Hyz; try discriminate;
    intros _ _.
  - now rewrite (cmp_keys_trans _ _ _ _ _ Hxy Hyz).
  - now rewrite (cmp_keys_eq_l _ _ _ (row_key z) Hxy), Hyz.
  - now rewrite <- (cmp_keys_eq_r _ (row_key x) _ _ Hyz), Hxy.
  - now rewrite (cmp_keys_trans _ _ _ _ _ Hxy Hyz).
Qed.

Lemma before_leb (x y : Row) : before s x y -> leb s x y = true.
Proof. unfold before, leb. now intros ->. Qed.

Lemma before_trans (x y z : Row) : before s x y -> before s y z -> before s x z.
Proof. unfold before. apply cmp_keys_trans. Qed.

Lemma before_flip (x y : Row) :
  before s x y -> cmp_keys s (row_key y) (row_key x) = Gt.
Proof. unfold before. intros H. now rewrite cmp_keys_antisym, H. Qed.

Lemma Forall_insert (P : Row -> Prop) (x : Row) (l : list Row) :
  P x -> Forall P l -> Forall P (insert s x l).
Proof.
  intros Hx. induction 1 as [|y l Hy Hl IH]; simpl.
  - now constructor.
  - destruct (leb s x y); repeat constructor; assumption.
Qed.

Lemma Forall_sort_rows (P : Row -> Prop) (l : list Row) :
  Forall P l -> Forall P (sort_rows s l).
Proof.
  induction 1 as [|x l Hx Hl IH]; simpl; [constructor|].
  now apply Forall_insert.
Qed.

Lemma insert_perm (x : Row) (l : list Row) : Permutation (insert s x l) (x :: l).
Proof.
  induction l as [|y l IH]; simpl; [reflexivity|].
  destruct (leb s x y); [reflexivity|].
  rewrite IH. apply perm_swap.
Qed.

Lemma sort_rows_perm (l : list Row) : Permutation (sort_rows s l) l.
Proof.
  induction l as [|x l IH]; simpl; [reflexivity|].
  rewrite insert_perm. now constructor.
Qed.

(** Inserting a row whose key no row of a strictly sorted list has keeps
    the list strictly sorted. *)
Lemma insert_before (x : Row) (l : list Row) :
  StronglySorted (before s) l ->
  Forall (fun y => cmp_keys s (row_key x) (row_key y) <> Eq) l ->
  StronglySorted (before s) (insert s x l).
Proof.
  induction 1 as [|y l Hl IH Hy]; simpl; intros Hx.
  - repeat constructor.
  - apply Forall_cons_iff in Hx as [Hxy Hx].
    unfold leb. destruct (cmp_keys s (row_key x) (row_key y)) eqn:Hc.
    + congruence.
    + constructor; [now constructor|].
      constructor; [exact Hc|].
      revert Hy. apply Forall_impl. intros z. now apply before_trans.
    + constructor; [now apply IH|].
      apply Forall_insert; [|exact Hy].
      unfold before. now rewrite cmp_keys_antisym, Hc.
Qed.

Lemma distinct_keys_cons (x : Row) (l : list Row) :
  distinct_keys s (x :: l) = true ->
  Forall (fun y => cmp_keys s (row_key x) (row_key y) <> Eq) l
  /\ distinct_keys s l = true.
Proof.
  simpl. intros H. apply andb_prop in H as [Hx Hl]. split; [|exact Hl].
  apply Forall_forall. intros y Hy.
  rewrite forallb_forall in Hx. specialize (Hx y Hy).
  now destruct (cmp_keys s (row_key x) (row_key y)).
Qed.

Lemma sort_rows_before (l : list Row) :
  distinct_keys s l = true -> StronglySorted (before s) (sort_rows s l).
Proof.
  induction l as [|x l IH]; intros H; simpl; [constructor|].
  apply distinct_keys_cons in H as [Hx Hl].
  apply insert_before; [now apply IH|now apply Forall_sort_rows].
Qed.

Lemma insert_first (x : Row) (l : list Row) :
  Forall (fun y => leb s x y = true) l -> insert s x l = x :: l.
Proof. destruct 1 as [|y l Hy _]; simpl; [reflexivity|now rewrite Hy]. Qed.

Lemma filter_insert (p : Row -> bool) (x : Row) (l : list Row) :
  StronglySorted (before s) l ->
  List.filter p (insert s x l)
  = if p x then insert s x (List.filter p l) else List.filter p l.
Proof.
  induction 1 as [|y l Hl IH Hy].
  - simpl. now destruct (p x).
  - cbn [insert]. destruct (leb s x y) eqn:Hxy.
    + change (List.filter p (x :: y :: l))
        with (if p x then x :: List.filter p (y :: l)
              else List.filter p (y :: l)).
      destruct (p x) eqn:Hp; [|reflexivity].
      symmetry. apply insert_first.
      assert (H : Forall (fun z => leb s x z = true) (y :: l)).
      { constructor; [exact Hxy|]. revert Hy. apply Forall_impl.
        intros z Hz. apply (leb_trans x y z Hxy). now apply before_leb. }
      apply Forall_forall. intros z Hz. apply filter_In in Hz as [Hz _].
      rewrite Forall_forall in H. now apply H.
    + change (List.filter p (y :: insert s x l))
        with (if p y then y :: List.filter p (insert s x l)
              else List.filter p (insert s x l)).
      rewrite IH.
      change (List.filter p (y :: l))
        with (if p y then y :: List.filter p l else List.filter p l).
      destruct (p y); destruct (p x); cbn [insert]; rewrite ?Hxy;
        reflexivity.
Qed.

Lemma distinct_keys_filter (p : Row -> bool) (l : list Row) :
  distinct_keys s l = true -> distinct_keys s (List.filter p l) = true.
Proof.
  induction l as [|x l IH]; intros H; [reflexivity|].
  pose proof H as H'. apply distinct_keys_cons in H' as [_ Hl].
  simpl. destruct (p x); [|now apply IH].
  simpl. rewrite (IH Hl), andb_true_r.
  simpl in H. apply andb_prop in H as [Hx _].
  rewrite forallb_forall in Hx |- *.
  intros y Hy. apply filter_In in Hy as [Hy _]. now apply Hx.
Qed.

(** Filtering commutes with the store's sort. *)
Lemma sort_rows_filter (p : Row -> bool) (l : list Row) :
  distinct_keys s l = true ->
  sort_rows s (List.filter p l) = List.filter p (sort_rows s l).
Proof.
  induction l as [|x l IH]; intros H; [reflexivity|].
  apply distinct_keys_cons in H as [_ Hl].
  simpl. rewrite filter_insert by now apply sort_rows_before.
  destruct (p x); simpl; now rewrite IH.
Qed.

End SortRows.

Lemma filter_andb {A : Type} (p q : A -> bool) (l : list A) :
  List.filter (fun x => p x && q x) l = List.filter q (List.filter p l).
Proof.
  induction l as [|x l IH]; simpl; [reflexivity|].
  destruct (p x); simpl; [|exact IH]. destruct (q x); now rewrite IH.
Qed.

Lemma filter_none {A : Type} (p : A -> bool) (l : list A) :
  Forall (fun x => p x = false) l -> List.filter p l = [].
Proof. induction 1 as [|x l Hx _ IH]; simpl; [reflexivity|now rewrite Hx]. Qed.

Lemma filter_all {A : Type} (p : A -> bool) (l : list A) :
  Forall (fun x => p x = true) l -> List.filter p l = l.
Proof.
  induction 1 as [|x l Hx _ IH]; simpl; [reflexivity|now rewrite Hx, IH].
Qed.

(** A list longer than [n] splits after its first [n] elements. *)
Lemma firstn_succ {A : Type} (n : nat) (l : list A) :
  (n < List.length l)%nat ->
  exists x, firstn (S n) l = firstn n l ++ [x]
            /\ skipn n l = x :: skipn (S n) l.
Proof.
  revert l. induction n as [|n IH]; intros [|a l] H; simpl in H; try lia.
  - now exists a.
  - destruct (IH l) as (x & H1 & H2); [lia|].
    exists x. split; [|exact H2].
    change (firstn (S (S n)) (a :: l)) with (a :: firstn (S n) l).
    now rewrite H1.
Qed.

(** ** Cursors as bounds *)

Lemma cursor_key_at (index : SortSpec) (r : Row) (f : Field) :
  In f (map fst index) ->
  Store.cursor_key (cursor_at index r) f = Store.row_key r f.
Proof.
  unfold Store.cursor_key, Store.row_key, cursor_at.
  induction index as [|[g o] index IH]; simpl; [tauto|].
  destruct (String.eqb_spec f g) as [->|Hfg]; [reflexivity|].
  intros [Hg|Hf]; [congruence|now apply IH].
Qed.

(** Comparing with the cursor built from a row is comparing with the row. *)
Lemma cmp_keys_cursor (index : SortSpec) (a : Field -> option Z) (r : Row) :
  Store.cmp_keys index a (Store.cursor_key (cursor_at index r))
  = Store.cmp_keys index a (Store.row_key r).
Proof.
  apply cmp_keys_ext; [reflexivity|]. intros f Hf. now apply cursor_key_at.
Qed.

Lemma same_fields_cursor_at (index : SortSpec) (r : Row) :
  Store.same_fields index (cursor_at index r) = true.
Proof.
  induction index as [|[g o] index IH]; simpl; [reflexivity|].
  now rewrite String.eqb_refl.
Qed.

Lemma each_series_map (f : Row -> Err + Row) (g : Row -> Row) (l : list Row) :
  (forall o, f o = inr (g o)) -> Index.each_series f l = inr (map g l).
Proof.
  intros H. induction l as [|o l IH]; simpl; [reflexivity|].
  now rewrite H, IH.
Qed.

(** ** Projections that keep a field *)

Lemma prop_get_filter (p : Field * Z -> bool) (f : Field) (r : Row) :
  (forall x, p (f, x) = true) ->
  prop_get f (List.filter p r) = prop_get f r.
Proof.
  intros Hp. induction r as [|[k x] r IH]; [reflexivity|].
  change (List.filter p ((k, x) :: r))
    with (if p (k, x) then (k, x) :: List.filter p r else List.filter p r).
  cbn [prop_get]. destruct (String.eqb_spec f k) as [->|Hfk].
  - rewrite Hp. cbn [prop_get]. now rewrite String.eqb_refl.
  - destruct (p (k, x)); [|exact IH].
    cbn [prop_get]. destruct (String.eqb_spec f k); [contradiction|exact IH].
Qed.

Lemma including (fs : Fields) (f : Field) :
  truthy (prop_get f fs) = true ->
  existsb (fun kv => negb (snd kv =? 0)) fs = true.
Proof.
  induction fs as [|[k x] fs IH]; cbn [prop_get existsb snd]; [discriminate|].
  destruct (String.eqb f k).
  - cbn [truthy]. intros ->. reflexivity.
  - intros H. rewrite (IH H). apply orb_true_r.
Qed.

(** The store keeps a field the projection includes. *)
Lemma select_keeps (fs : Fields) (f : Field) (r : Row) :
  truthy (prop_get f fs) = true ->
  prop_get f (Store.select (Some fs) r) = prop_get f r.
Proof.
  intros Hf. unfold Store.select. rewrite (including _ _ Hf).
  apply prop_get_filter. intros x. cbn [fst]. now rewrite Hf.
Qed.

(** It keeps [_id] when the projection includes a field and does not
    mention [_id]. *)
Lemma select_keeps_id (fs : Fields) (r : Row) :
  existsb (fun kv => negb (snd kv =? 0)) fs = true ->
  prop_get "_id" fs = None ->
  prop_get "_id" (Store.select (Some fs) r) = prop_get "_id" r.
Proof.
  intros Hin Hid. unfold Store.select. rewrite Hin.
  apply prop_get_filter. intros x. cbn [fst].
  rewrite Hid, String.eqb_refl. apply orb_true_r.
Qed.

Lemma prop_get_set_other {A : Type} (k k' : Field) (x : A) (o : Obj A) :
  k <> k' -> prop_get k (prop_set k' x o) = prop_get k o.
Proof.
  intros Hk. induction o as [|[g y] o IH]; cbn [prop_set prop_get].
  - destruct (String.eqb_spec k k'); [contradiction|reflexivity].
  - destruct (String.eqb_spec k' g) as [<-|Hg]; cbn [prop_get].
    + destruct (String.eqb_spec k k'); [contradiction|reflexivity].
    + now rewrite IH.
Qed.

(** Every value of a projection that only includes is 1. *)
Lemma only_includes (fs : Fields) (f : Field) (x : Z) :
  forallb (fun kv => snd kv =? 1) fs = true ->
  prop_get f fs = Some x -> x = 1.
Proof.
  induction fs as [|[k y] fs IH]; cbn [forallb prop_get snd]; [discriminate|].
  intros H. apply andb_prop in H as [Hy Hfs].
  destruct (String.eqb f k); [|now apply IH].
  intros [= <-]. now apply Z.eqb_eq.
Qed.

(** Under such a projection, with [visibility] switched on as [find] does,
    the store keeps the fields of the sort. *)
Lemma keeps_sort_fields (search : Search) (r : Row) (f : Field) :
  keeps_sort (search_fields search) (search_sort search) = true ->
  In f (map fst (search_sort search)) ->
  prop_get f (Store.select (Index.projection search) r) = prop_get f r.
Proof.
  unfold keeps_sort, Index.projection.
  destruct (search_fields search) as [fs|]; [|reflexivity].
  intros H Hf. apply andb_prop in H as [Hones Hsort].
  apply in_map_iff in Hf as ([g o] & <- & Hin). cbn [fst].
  rewrite forallb_forall in Hsort. specialize (Hsort _ Hin). cbn [fst] in Hsort.
  assert (Hin' : existsb (fun kv => negb (snd kv =? 0))
                   (prop_set "visibility" 1 fs) = true).
  { apply (including _ "visibility"). now rewrite prop_get_set. }
  destruct (String.eqb_spec g "visibility") as [->|Hv].
  - apply select_keeps. now rewrite prop_get_set.
  - destruct (prop_get g fs) as [x|] eqn:Hg.
    + apply select_keeps. rewrite prop_get_set_other, Hg by exact Hv.
      now rewrite (only_includes _ _ _ Hones Hg).
    + cbn [truthy] in Hsort. rewrite orb_false_r in Hsort.
      apply String.eqb_eq in Hsort. subst g.
      apply select_keeps_id; [exact Hin'|].
      now rewrite prop_get_set_other.
Qed.

Lemma cursor_at_ext (index : SortSpec) (r r' : Row) :
  (forall f, In f (map fst index) -> prop_get f r = prop_get f r') ->
  cursor_at index r = cursor_at index r'.
Proof.
  intros H. unfold cursor_at. apply map_ext_in. intros [f o] Hin.
  cbn [fst]. f_equal. apply H. now apply (in_map fst) in Hin.
Qed.

(** ** The forward walk (C1) *)

Section ForwardWalk.

Variable E : Externals.
Variable v : bool.
Variable db : list Row.
Variable q : Query.
Variable s : SortSpec.
Variable n : Z.
Variable pj : option Fields.
Variable view : Row -> Row.

Hypothesis Hvalid :
  v = true \/ forall c, validators_model E "find" c = inr c.
Hypothesis Hview : forall c o, utils_visibles E c (utils_json E o) = inr (view o).
Hypothesis Hn : 1 <= n.
Hypothesis Hs : s <> [].
Hypothesis Hpat : Store.key_pattern s = true.
Hypothesis Hdistinct : distinct_keys s (List.filter q db) = true.
Hypothesis Hkeeps :
  forall r f, In f (map fst s) -> prop_get f (Store.select pj r) = prop_get f r.

(** The matching records, in the order of the sort. *)
Local Abbreviation sorted := (Store.sort_rows s (List.filter q db)).

Local Abbreviation hint := (walk_hint s).

Local Abbreviation asks := (asks v db q s n pj).

Local Abbreviation resumes := (resumes sorted s).

Local Abbreviation sel := (Store.select pj).

Lemma primary_order_cases :
  primary_order s = Some 1 \/ primary_order s = Some (-1).
Proof.
  destruct s as [|[f o] s'] eqn:Es; [contradiction|].
  unfold primary_order, first. cbn [prop_get]. rewrite String.eqb_refl.
  simpl in Hpat. apply andb_prop in Hpat as [Ho _].
  apply orb_prop in Ho as [Ho|Ho]; apply Z.eqb_eq in Ho; subst; auto.
Qed.

Lemma hint_pattern : Store.key_pattern hint = true.
Proof.
  unfold hint. destruct (is_one (primary_order s)); [exact Hpat|].
  now apply key_pattern_invert.
Qed.

Lemma hint_fields : map fst hint = map fst s.
Proof.
  unfold hint. destruct (is_one (primary_order s)); [reflexivity|].
  unfold invert. now rewrite map_map.
Qed.

(** The cursor read off a projected row is the cursor of the row. *)
Lemma cursor_at_sel (r : Row) : cursor_at hint (sel r) = cursor_at hint r.
Proof.
  apply cursor_at_ext. intros f Hf. apply Hkeeps. now rewrite <- hint_fields.
Qed.

Lemma sorted_before : StronglySorted (before s) sorted.
Proof. now apply sort_rows_before. Qed.

Lemma resumes_suffix (ctx : Ctx) (rest : list Row) :
  resumes ctx rest -> exists pre, sorted = pre ++ rest.
Proof.
  unfold resumes. destruct (search_cursor (ctx_search ctx)) as [c|].
  - destruct (is_one (primary_order s)).
    + intros (pre & r & rest' & H & -> & _). now exists pre.
    + intros (pre & r & H & _). exists (pre ++ [r]).
      now rewrite <- app_assoc.
  - intros ->. now exists [].
Qed.

(** A request of the walk passes validation as it is. *)
Lemma asks_valid (ctx : Ctx) : asks ctx -> validate E "find" ctx = inr ctx.
Proof.
  intros (Hv & _). unfold validate. rewrite Hv.
  destruct Hvalid as [-> | H]; [reflexivity|].
  destruct v; [reflexivity|apply H].
Qed.

(** The resolver on a request of the walk. *)
Lemma resolve_forward (ctx : Ctx) :
  asks ctx ->
  Index.resolve (ctx_search ctx) =
  {| Index.r_order := primary_order s;
     Index.r_direction := primary_order s;
     Index.r_natural := is_one (primary_order s);
     Index.r_hint := hint;
     Index.r_invert := false;
     Index.r_sorter := s |}.
Proof.
  intros (_ & _ & _ & _ & Hsort & _ & _ & Hdir).
  assert (Hd : js_or (search_direction (ctx_search ctx)) (primary_order s)
               = primary_order s).
  { destruct Hdir as [-> | ->]; [reflexivity|].
    unfold js_or. now destruct (truthy (primary_order s)). }
  unfold Index.resolve, hint. rewrite Hsort, Hd.
  destruct (is_one (primary_order s)); reflexivity.
Qed.

Lemma store_query_forward (ctx : Ctx) :
  asks ctx ->
  Index.store_query (ctx_search ctx) =
  {| q_find := q; q_sort := s; q_select := pj; q_limit := n + 1;
     q_hint := hint;
     q_options := Index.range (ctx_search ctx) (is_one (primary_order s)) |}.
Proof.
  intros H. unfold Index.store_query.
  rewrite (resolve_forward _ H).
  destruct H as (_ & _ & _ & -> & _ & -> & -> & _). reflexivity.
Qed.

(** The bound of a request of the walk lets through what is yet to visit. *)
Lemma bound_rows (ctx : Ctx) (rest : list Row) :
  asks ctx -> resumes ctx rest ->
  List.filter (Store.admits false (Index.store_query (ctx_search ctx))) sorted
  = rest.
Proof.
  intros Ha Hr. rewrite (store_query_forward _ Ha).
  unfold resumes in Hr. unfold Store.admits, Index.range. cbn [q_options q_hint].
  destruct (search_cursor (ctx_search ctx)) as [c|].
  - unfold hint. pose proof sorted_before as Hsorted.
    destruct (is_one (primary_order s)); cbn [min max].
    + destruct Hr as (pre & r & rest' & Hsplit & -> & ->).
      rewrite Hsplit in Hsorted |- *.
      apply StronglySorted_app_inv in Hsorted as (_ & Hrest & Hpre).
      apply StronglySorted_inv in Hrest as [_ Hrest].
      rewrite filter_app, filter_none, filter_all; [reflexivity| |].
      * constructor.
        -- unfold Store.from_min. now rewrite cmp_keys_cursor, cmp_keys_refl.
        -- revert Hrest. apply Forall_impl. intros x Hx.
           unfold Store.from_min. rewrite cmp_keys_cursor.
           now rewrite (before_flip _ _ _ Hx).
      * revert Hpre. apply Forall_impl. intros x Hx.
        apply Forall_inv in Hx. unfold Store.from_min.
        rewrite cmp_keys_cursor. unfold before in Hx. now rewrite Hx.
    + destruct Hr as (pre & r & Hsplit & ->).
      rewrite Hsplit in Hsorted |- *.
      apply StronglySorted_app_inv in Hsorted as (_ & Hrest & Hpre).
      apply StronglySorted_inv in Hrest as [_ Hrest].
      change (r :: rest) with ([r] ++ rest).
      rewrite !filter_app, (filter_none _ pre), (filter_none _ [r]),
        filter_all; [reflexivity| | |].
      * revert Hrest. apply Forall_impl. intros x Hx.
        unfold Store.to_max.
        rewrite cmp_keys_cursor, cmp_keys_invert by exact Hpat.
        now rewrite (before_flip _ _ _ Hx).
      * constructor; [|constructor]. unfold Store.to_max.
        now rewrite cmp_keys_cursor, cmp_keys_refl.
      * revert Hpre. apply Forall_impl. intros x Hx.
        apply Forall_inv in Hx. unfold Store.to_max.
        rewrite cmp_keys_cursor, cmp_keys_invert by exact Hpat.
        unfold before in Hx. now rewrite Hx.
  - subst rest. cbn [min max]. now apply filter_all, Forall_forall.
Qed.

(** Its bound names the fields of the hint. *)
Lemma bound_fits (ctx : Ctx) (rest : list Row) :
  asks ctx -> resumes ctx rest ->
  Store.bounds_fit (Index.store_query (ctx_search ctx)) = true.
Proof.
  intros Ha Hr. rewrite (store_query_forward _ Ha).
  unfold resumes in Hr. unfold Store.bounds_fit, Index.range.
  cbn [q_options q_hint].
  destruct (search_cursor (ctx_search ctx)) as [c|]; [|reflexivity].
  unfold hint. destruct (is_one (primary_order s)); cbn [min max].
  - destruct Hr as (pre & r & rest' & _ & _ & ->).
    now rewrite same_fields_cursor_at.
  - destruct Hr as (pre & r & _ & ->). now rewrite same_fields_cursor_at.
Qed.

(** What the store returns to a request of the walk: the first [n + 1] of
    the records yet to visit, projected. *)
Lemma store_rows (ctx : Ctx) (rest : list Row) :
  asks ctx -> resumes ctx rest ->
  ctx_model ctx (Index.store_query (ctx_search ctx))
  = inr (map sel (firstn (S (Z.to_nat n)) rest)).
Proof.
  intros Ha Hr.
  pose proof (bound_rows _ _ Ha Hr) as Hrows.
  pose proof (bound_fits _ _ Ha Hr) as Hfit.
  pose proof Ha as (_ & Hm & _). rewrite Hm. unfold Store.mongo, Store.exec.
  rewrite Hfit. revert Hrows.
  rewrite (store_query_forward ctx Ha). cbn [q_sort q_hint q_select
    q_limit q_find]. intros Hrows.
  rewrite Hpat, hint_pattern. cbn [andb negb].
  rewrite filter_andb, sort_rows_filter by exact Hdistinct.
  rewrite Hrows. unfold Store.limit.
  destruct (Z.eqb_spec (n + 1) 0) as [H0|_]; [lia|].
  replace (Z.abs_nat (n + 1)) with (S (Z.to_nat n)) by lia.
  reflexivity.
Qed.

Lemma post_view (ctx : Ctx) (l : list Row) :
  Index.each_series (post E ctx) l = inr (map view l).
Proof.
  apply each_series_map. intros o. unfold post.
  now rewrite filter_keeps.
Qed.

Lemma follow_asks (ctx : Ctx) (c : Cursor) (d : Z) :
  asks ctx -> Some d = primary_order s ->
  asks (follow ctx (link_of ctx c d)).
Proof.
  intros (Hv & Hm & Hq & _ & Hsort & Hc & Hf & _) Hd.
  unfold asks, follow, link_of. unfold Index.projection in Hf |- *.
  cbn. repeat split; auto.
Qed.

(** One page of the walk: the next [n] records yet to visit, and a [next]
    link exactly when more are left, which resumes at what is left. *)
Lemma forward_page (ctx : Ctx) (rest : list Row) :
  asks ctx -> resumes ctx rest ->
  exists paging,
    outcome (Index.find E ctx)
    = Found (map view (map sel (firstn (Z.to_nat n) rest))) paging
    /\ if (List.length rest <=? Z.to_nat n)%nat then next paging = None
       else exists l,
           next paging = Some l
           /\ asks (follow ctx l)
           /\ resumes (follow ctx l) (skipn (Z.to_nat n) rest).
Proof.
  intros Ha Hr.
  rewrite (find_validated _ _ _ (asks_valid ctx Ha)). cbn [outcome].
  rewrite (store_rows _ _ Ha Hr), (resolve_forward _ Ha).
  cbn [Index.r_hint Index.r_natural Index.r_invert Index.r_order].
  pose proof Ha as (_ & _ & Hq & _ & Hsort & Hcount & _).
  destruct (Nat.leb_spec (List.length rest) (Z.to_nat n)) as [Hle|Hlt].
  - rewrite !firstn_all2 by lia.
    rewrite sides_short by (rewrite length_map; lia). rewrite post_view.
    eexists. split; [reflexivity|].
    unfold Index.place.
    destruct (is_one (primary_order s)); reflexivity.
  - destruct (firstn_succ (Z.to_nat n) rest Hlt) as (x & Hfirst & Hskip).
    assert (Hlen : List.length (firstn (Z.to_nat n) rest) = Z.to_nat n).
    { rewrite length_firstn. lia. }
    rewrite Hfirst, map_app. cbn [map].
    rewrite sides_full
      by (rewrite length_app, length_map, Hlen; simpl; lia).
    rewrite cursor_at_sel.
    destruct (resumes_suffix _ _ Hr) as (pre & Hpre).
    rewrite <- (firstn_skipn (Z.to_nat n) rest) in Hpre.
    destruct (is_one (primary_order s)) eqn:Ho.
    + rewrite post_view. eexists. split; [reflexivity|].
      unfold Index.place. rewrite Ho. cbn [next].
      eexists. split; [reflexivity|].
      assert (Hone : Some 1 = primary_order s).
      { destruct (primary_order s) as [o|]; [|discriminate].
        simpl in Ho. apply Z.eqb_eq in Ho. now subst. }
      split.
      * exact (follow_asks ctx _ _ Ha Hone).
      * unfold resumes, follow. cbn. rewrite Ho.
        exists (pre ++ firstn (Z.to_nat n) rest), x,
          (skipn (S (Z.to_nat n)) rest).
        rewrite <- app_assoc, <- Hskip. unfold walk_hint.
        rewrite Ho. auto.
    + destruct (snoc_of_length (firstn (Z.to_nat n) rest) (n - 1))
        as (kept' & prev & Hkept & _); [lia|lia|].
      assert (Hlast : cursor hint (last_of (map sel (firstn (Z.to_nat n) rest)))
                      = Some (cursor_at hint prev)).
      { rewrite Hkept, map_app. cbn [map].
        now rewrite last_of_snoc, cursor_some, cursor_at_sel. }
      rewrite Hlast, post_view.
      eexists. split; [reflexivity|].
      unfold Index.place. rewrite Ho. cbn [next].
      eexists. split; [reflexivity|].
      assert (Hone : Some (-1) = primary_order s).
      { destruct primary_order_cases as [H|H]; rewrite H in Ho |- *;
          [discriminate|reflexivity]. }
      split.
      * exact (follow_asks ctx _ _ Ha Hone).
      * unfold resumes, follow. cbn. rewrite Ho.
        exists (pre ++ kept'), prev.
        rewrite Hkept, <- !app_assoc in Hpre.
        unfold walk_hint. rewrite Ho.
        split; [now rewrite <- app_assoc|reflexivity].
Qed.

(** The walk from a request visits what is yet to visit. *)
Lemma walk_visits (fuel : nat) (ctx : Ctx) (rest : list Row) :
  asks ctx -> resumes ctx rest -> (List.length rest < fuel)%nat ->
  walk (Index.find E) fuel ctx = Some (map view (map sel rest)).
Proof.
  revert ctx rest. induction fuel as [|fuel IH]; intros ctx rest Ha Hr Hf;
    [lia|].
  destruct (forward_page _ _ Ha Hr) as (paging & Hfound & Hnext).
  cbn [walk]. rewrite Hfound.
  destruct (Nat.leb_spec (List.length rest) (Z.to_nat n)) as [Hle|Hlt].
  - rewrite Hnext. now rewrite firstn_all2 by lia.
  - destruct Hnext as (l & -> & Ha' & Hr').
    rewrite (IH _ _ Ha' Hr').
    + now rewrite <- !map_app, firstn_skipn.
    + rewrite length_skipn. lia.
Qed.

End ForwardWalk.

(** C1, counterexample. Two records have the same key under a sort without
    tie-break. The first page holds the first of them and a [next] link at
    their key; the page that link leads to holds the same record and the
    same [next] link, and following it is the same request again: the walk
    visits the first record over and over, never the second, and no fuel
    lets it end. *)
Lemma walk_loops_on_equal_keys :
  let twin1 := [("_id", 1); ("field", 7)] in
  let l := Scenario.link 7 1 in
  outcome (Index.find Scenario.plain Scenario.twins)
  = Found [twin1] {| last := None; next := Some l |}
  /\ outcome (Index.find Scenario.plain (follow Scenario.twins l))
     = Found [twin1] {| last := Some (Scenario.link 7 (-1)); next := Some l |}
  /\ follow (follow Scenario.twins l) l = follow Scenario.twins l
  /\ ~ (exists fuel visited,
          walk (Index.find Scenario.plain) fuel Scenario.twins = Some visited).
Proof.
  cbv zeta. split; [reflexivity|]. split; [reflexivity|].
  split; [reflexivity|].
  assert (Hloop : forall fuel,
             walk (Index.find Scenario.plain) fuel
               (follow Scenario.twins (Scenario.link 7 1)) = None).
  { induction fuel as [|fuel IH]; [reflexivity|].
    cbn [walk].
    change (outcome (Index.find Scenario.plain
                       (follow Scenario.twins (Scenario.link 7 1))))
      with (Found [[("_id", 1); ("field", 7)]]
              {| last := Some (Scenario.link 7 (-1));
                 next := Some (Scenario.link 7 1) |}).
    cbn [next].
    change (follow (follow Scenario.twins (Scenario.link 7 1))
              (Scenario.link 7 1))
      with (follow Scenario.twins (Scenario.link 7 1)).
    now rewrite IH. }
  intros (fuel & visited & H).
  destruct fuel as [|fuel]; [discriminate|].
  cbn [walk] in H.
  change (outcome (Index.find Scenario.plain Scenario.twins))
    with (Found [[("_id", 1); ("field", 7)]]
            {| last := None; next := Some (Scenario.link 7 1) |}) in H.
  cbn [next] in H. rewrite Hloop in H. discriminate.
Qed.

(** A projection that drops a field of the sort stops the walk as well: the
    cursor is read off the projected row. With the projection [{_id: 1}]
    over the scenario sorted by [field] then [_id], the cursor of the first
    [next] link has no value for [field], the page it leads to is the first
    page again with the same link, and no fuel lets the walk end. *)
Remark walk_loops_under_projection :
  let sort := [("field", 1); ("_id", 1)] in
  let ctx := selecting [("_id", 1)] (Scenario.request sort 2) in
  let l := {| link_query := Scenario.all; link_sort := sort;
              link_cursor := [("field", None); ("_id", Some 3)];
              link_direction := 1 |} in
  outcome (Index.find Scenario.plain ctx)
  = Found [[("_id", 1)]; [("_id", 2)]] {| last := None; next := Some l |}
  /\ next_of (outcome (Index.find Scenario.plain (follow ctx l))) = Some l
  /\ follow (follow ctx l) l = follow ctx l
  /\ ~ (exists fuel visited,
          walk (Index.find Scenario.plain) fuel ctx = Some visited).
Proof.
  cbv zeta. split; [reflexivity|]. split; [reflexivity|].
  split; [reflexivity|].
  set (sort := [("field", 1); ("_id", 1)]).
  set (ctx := selecting [("_id", 1)] (Scenario.request sort 2)).
  set (l := {| link_query := Scenario.all; link_sort := sort;
               link_cursor := [("field", None); ("_id", Some 3)];
               link_direction := 1 |}).
  assert (Hpage : exists records lst,
             outcome (Index.find Scenario.plain (follow ctx l))
             = Found records {| last := lst; next := Some l |}).
  { eexists. eexists. reflexivity. }
  destruct Hpage as (records & lst & Hpage).
  assert (Hsame : follow (follow ctx l) l = follow ctx l) by reflexivity.
  assert (Hloop : forall fuel,
             walk (Index.find Scenario.plain) fuel (follow ctx l) = None).
  { induction fuel as [|fuel IH]; [reflexivity|].
    cbn [walk]. rewrite Hpage. cbn [next]. rewrite Hsame. now rewrite IH. }
  intros (fuel & visited & H).
  destruct fuel as [|fuel]; [discriminate|].
  cbn [walk] in H.
  change (outcome (Index.find Scenario.plain ctx))
    with (Found [[("_id", 1)]; [("_id", 2)]]
            {| last := None; next := Some l |}) in H.
  cbn [next] in H. rewrite Hloop in H. discriminate.
Qed.

(** The links carry the query recorded for the request. When it is not the
    query that is run, the walk goes on with the recorded one: here it
    matches nothing, and the walk ends after the first page, having visited
    two of the five matching records. *)
Remark walk_follows_the_recorded_query :
  walk (Index.find Scenario.plain) 6 Scenario.relabelled
  = Some (map Scenario.record [1; 2])
  /\ List.filter (search_query (ctx_search Scenario.relabelled)) Scenario.db
     = Scenario.db.
Proof. split; reflexivity. Qed.

(** C1, amended. Take a finite collection behind a store that reads [min]
    as an inclusive and [max] as an exclusive bound in the order of the
    hint, a filter, a non-empty sort specification of orders 1 and -1 under
    which no two matching records have the same key (the total order the
    identity tie-break field is there for), and a positive page size that is
    a safe integer. Start [find] without cursor, with no direction or the
    direction of the sort, with the filter as the query recorded for the
    request, and with no projection or one that only includes fields, the
    fields of the sort among them ([_id] need not be named); the context is
    marked validated or the validator passes every request as it is, and
    every record is visible, as [view] of it. Keep issuing the request held
    in [next], with the page size and projection of the first request, until
    [next] is null. Then, given fuel for one call more than there are
    records, the walk ends and has visited, projected and through [view],
    every record matching the filter exactly once, in the strict order of
    the sort. *)
Theorem forward_walk_visits_all (E : Externals) (db : list Row) (ctx : Ctx)
  (view : Row -> Row) (fuel : nat) :
  (ctx_validated ctx = true
   \/ forall c, validators_model E "find" c = inr c) ->
  (forall c o, utils_visibles E c (utils_json E o) = inr (view o)) ->
  ctx_model ctx = Store.mongo db ->
  ctx_queried ctx = search_query (ctx_search ctx) ->
  search_cursor (ctx_search ctx) = None ->
  (search_direction (ctx_search ctx) = None
   \/ search_direction (ctx_search ctx)
      = primary_order (search_sort (ctx_search ctx))) ->
  keeps_sort (search_fields (ctx_search ctx)) (search_sort (ctx_search ctx))
  = true ->
  1 <= search_count (ctx_search ctx) ->
  safe_integer (search_count (ctx_search ctx)) = true ->
  search_sort (ctx_search ctx) <> [] ->
  Store.key_pattern (search_sort (ctx_search ctx)) = true ->
  distinct_keys (search_sort (ctx_search ctx))
    (List.filter (search_query (ctx_search ctx)) db) = true ->
  (List.length db < fuel)%nat ->
  exists visited,
    walk (Index.find E) fuel ctx
    = Some (map view
              (map (Store.select (Index.projection (ctx_search ctx)))
                 visited))
    /\ Permutation visited (List.filter (search_query (ctx_search ctx)) db)
    /\ StronglySorted (before (search_sort (ctx_search ctx))) visited.
Proof.
  intros Hvalid Hview Hmodel Hqueried Hcursor Hdir Hkeeps Hcount _ Hsort Hpat
    Hdistinct Hfuel.
  exists (Store.sort_rows (search_sort (ctx_search ctx))
            (List.filter (search_query (ctx_search ctx)) db)).
  split; [|split].
  - apply (walk_visits E (ctx_validated ctx) db
             (search_query (ctx_search ctx))
             (search_sort (ctx_search ctx)) (search_count (ctx_search ctx))
             (Index.projection (ctx_search ctx))
             view Hvalid Hview Hcount Hsort Hpat Hdistinct).
    + intros r f. now apply keeps_sort_fields.
    + unfold asks. repeat split; auto.
    + unfold resumes. now rewrite Hcursor.
    + rewrite (Permutation_length (sort_rows_perm _ _)).
      eapply Nat.le_lt_trans; [apply filter_length_le|exact Hfuel].
  - apply sort_rows_perm.
  - now apply sort_rows_before.
Qed.

(** C1, witness: the walk down the descending sort of the scenario, with a
    projection on [field], which keeps [field] and [_id]. *)
Lemma forward_walk_visits_all_witness :
  exists visited,
    walk (Index.find Scenario.plain) 6
      (selecting [("field", 1)] (Scenario.request Scenario.descending 2))
    = Some (map (fun o => o)
              (map (Store.select (Some [("field", 1); ("visibility", 1)]))
                 visited))
    /\ Permutation visited (List.filter Scenario.all Scenario.db)
    /\ StronglySorted (before Scenario.descending) visited.
Proof.
  apply (forward_walk_visits_all Scenario.plain Scenario.db
           (selecting [("field", 1)] (Scenario.request Scenario.descending 2))
           (fun o => o) 6);
    try reflexivity.
  - now left.
  - now left.
  - vm_compute. discriminate.
  - discriminate.
  - simpl. lia.
Defined.

(** ** The inlined field filter *)

(** In [find] of [src/index.js] every row reaches [utils.visibles] with all
    the fields [utils.json] gave it: [visibility] is switched on in the
    projection before the closure [filter] looks at it, so the closure
    returns its argument. *)
Theorem records_pass_unfiltered (E : Externals) (ctx : Ctx) (o : Row) :
  post E ctx o = utils_visibles E ctx (utils_json E o).
Proof. unfold post. now rewrite filter_keeps. Qed.

(** * The other exports *)

(** ** [exports.invert] *)

Lemma prop_get_invert (k : Field) (o : SortSpec) :
  prop_get k (invert o) = option_map (fun v => v * -1) (prop_get k o).
Proof.
  unfold invert. induction o as [|[k' v] o IH]; cbn [map prop_get fst snd];
    [reflexivity|].
  now destruct (String.eqb k k').
Qed.

Lemma fields_invert (o : SortSpec) : map fst (invert o) = map fst o.
Proof. unfold invert. rewrite map_map. reflexivity. Qed.

(** [exports.invert] gives an object with the fields of its argument, in
    their order, each order negated; the first field stays the first, and
    inverting twice gives the argument back. *)
Theorem invert_negates_in_place (o : SortSpec) :
  map fst (invert o) = map fst o
  /\ (forall k, prop_get k (invert o)
                = option_map (fun v => v * -1) (prop_get k o))
  /\ first (invert o) = first o
  /\ primary_order (invert o) = option_map (fun v => v * -1) (primary_order o)
  /\ invert (invert o) = o.
Proof.
  split; [apply fields_invert|].
  split; [intros k; apply prop_get_invert|].
  assert (Hfirst : first (invert o) = first o) by now destruct o as [|[k v] o].
  split; [exact Hfirst|].
  split; [|apply invert_invert].
  unfold primary_order. rewrite Hfirst.
  destruct (first o); apply prop_get_invert.
Qed.

(** ** [exports.cursor] *)

Lemma prop_get_cursor_at (index : SortSpec) (r : Row) (f : Field) :
  In f (map fst index) -> prop_get f (cursor_at index r) = Some (prop_get f r).
Proof.
  unfold cursor_at.
  induction index as [|[g o] index IH]; cbn [map prop_get fst snd In];
    [tauto|].
  destruct (String.eqb_spec f g) as [->|Hfg]; [reflexivity|].
  intros [Hg|Hf]; [congruence|now apply IH].
Qed.

(** The cursor [exports.cursor] builds from a row has the fields of the
    index, in the order of the index, each with the value the row has for it
    ([undefined] when the row lacks it). The orders of the index play no
    part: an index and its inversion give the same cursor. Only an
    [undefined] row under an index that has a field makes it throw. *)
Theorem cursor_copies_index_fields (index : SortSpec) (o : option Row) :
  (forall r, o = Some r ->
     exists c,
       cursor index o = Some c
       /\ map fst c = map fst index
       /\ forall f, In f (map fst index) ->
                    prop_get f c = Some (prop_get f r))
  /\ cursor (invert index) o = cursor index o
  /\ (cursor index o = None <-> o = None /\ index <> []).
Proof.
  split; [|split].
  - intros r ->. exists (cursor_at index r).
    split; [apply cursor_some|]. split.
    + unfold cursor_at. rewrite map_map. reflexivity.
    + intros f Hf. now apply prop_get_cursor_at.
  - destruct o as [r|]; destruct index as [|[k v] index]; try reflexivity.
    cbn [invert map cursor fst snd]. f_equal. f_equal.
    rewrite map_map. reflexivity.
  - destruct o as [r|]; destruct index as [|kv index]; simpl; split;
      try discriminate; try tauto.
    + intros [H _]. discriminate.
    + intros _. split; [reflexivity|discriminate].
Qed.

(** ** [exports.objectId] *)

Lemma match_hex_spec (n : nat) (s rest : string) :
  match_hex n s = Some rest <->
  exists pre,
    s = (pre ++ rest)%string
    /\ String.length pre = n
    /\ forallb hex_digit (list_ascii_of_string pre) = true.
Proof.
  revert s. induction n as [|n IH]; intros s; cbn [match_hex].
  - split.
    + intros H. injection H as <-. now exists EmptyString.
    + intros (pre & -> & Hl & _). destruct pre; [reflexivity|discriminate].
  - destruct s as [|c s].
    + split; [discriminate|].
      intros (pre & H & Hl & _). destruct pre; discriminate.
    + destruct (hex_digit c) eqn:Hc.
      * rewrite IH. split.
        -- intros (pre & -> & Hl & Hh). exists (String c pre).
           cbn. rewrite Hc, Hl, Hh. auto.
        -- intros (pre & H & Hl & Hh). destruct pre as [|c' pre];
             [discriminate|].
           cbn in H, Hl, Hh. injection H as <- ->. injection Hl as Hl.
           apply andb_prop in Hh as [_ Hh]. now exists pre.
      * split; [discriminate|].
        intros (pre & H & Hl & Hh). destruct pre as [|c' pre];
          [discriminate|].
        cbn in H, Hh. injection H as <- _. rewrite Hc in Hh. discriminate.
Qed.

Lemma append_empty (s : string) : (s ++ "")%string = s.
Proof. induction s as [|c s IH]; cbn; [reflexivity|now rewrite IH]. Qed.

(** [exports.objectId] matches exactly the strings of 24 characters that are
    all hexadecimal digits, of either case; the match is the whole string,
    and every other string gives [null]. *)
Theorem objectId_accepts (id : string) :
  (objectId id = Some [id] <->
   String.length id = 24%nat
   /\ forallb hex_digit (list_ascii_of_string id) = true)
  /\ (objectId id = None <->
      ~ (String.length id = 24%nat
         /\ forallb hex_digit (list_ascii_of_string id) = true)).
Proof.
  assert (H : match_hex 24 id = Some EmptyString <->
              String.length id = 24%nat
              /\ forallb hex_digit (list_ascii_of_string id) = true).
  { rewrite match_hex_spec. split.
    - intros (pre & -> & Hl & Hh). now rewrite append_empty.
    - intros [Hl Hh]. exists id. now rewrite append_empty. }
  unfold objectId.
  destruct (match_hex 24 id) as [[|c rest]|] eqn:Hm.
  - split; split.
    + intros _. now apply H.
    + reflexivity.
    + discriminate.
    + intros Hn. exfalso. apply Hn. now apply H.
  - split; split.
    + discriminate.
    + intros Hh. apply H in Hh. discriminate.
    + intros _ Hh. apply H in Hh. discriminate.
    + reflexivity.
  - split; split.
    + discriminate.
    + intros Hh. apply H in Hh. discriminate.
    + intros _ Hh. apply H in Hh. discriminate.
    + reflexivity.
Qed.

(** ** [exports.ensureIndexes] *)

Section EnsureIndexes.

Import Schema.

Lemma declare_paths (paths : Paths) (acc : list SortSpec * list SortSpec) :
  fold_left declare_path paths acc
  = (fst acc ++ map index_of (List.filter is_indexed paths),
     snd acc ++ map (fun p => compound_of (fst p))
                  (List.filter is_sortable paths)).
Proof.
  revert acc. induction paths as [|[path o] paths IH]; intros [d c].
  - cbn. now rewrite !app_nil_r.
  - cbn [fold_left]. rewrite IH. unfold declare_path, is_indexed, is_sortable,
      index_of, is_sortable, compound_of.
    cbn [fst snd List.filter prop_set].
    destruct o as [[se so]|]; cbn [searchable sortable fst snd];
      [|reflexivity].
    destruct se, so; cbn [negb andb orb fst snd map];
      rewrite <- ?app_assoc; reflexivity.
Qed.

Lemma declare_compounds (cs : list SortSpec)
  (acc : list SortSpec * list SortSpec) :
  fold_left declare_compound cs acc
  = (fst acc ++ flat_map (fun o => [o; extend o]) cs,
     snd acc ++ map extend cs).
Proof.
  revert acc. induction cs as [|o cs IH]; intros [d e].
  - cbn. now rewrite !app_nil_r.
  - cbn [fold_left]. rewrite IH. unfold declare_compound.
    cbn [fst snd flat_map map]. rewrite <- !app_assoc. reflexivity.
Qed.

Lemma ensure_closed_form (paths : Paths) (compounds0 : list SortSpec) :
  ensureIndexes paths compounds0
  = let pushed := compounds0
                  ++ map (fun p => compound_of (fst p))
                       (List.filter is_sortable paths) in
    {| declared := map index_of (List.filter is_indexed paths)
                   ++ flat_map (fun o => [o; extend o]) pushed;
       pushed := pushed;
       compounds := pushed ++ map extend pushed |}.
Proof.
  unfold ensureIndexes. rewrite declare_paths. cbn [fst snd].
  rewrite declare_compounds. reflexivity.
Qed.

Lemma compound_of_cases (path : Field) :
  compound_of path
  = if String.eqb "_id" path then [("_id", 1)] else [(path, 1); ("_id", 1)].
Proof.
  unfold compound_of. cbn [prop_set].
  destruct (String.eqb_spec "_id" path) as [<-|]; reflexivity.
Qed.

Lemma extend_compound_of (path : Field) :
  extend (compound_of path)
  = if String.eqb "_id" path then [("_id", -1)] else [(path, -1); ("_id", 1)].
Proof.
  rewrite compound_of_cases.
  destruct (String.eqb_spec "_id" path) as [<-|Hp]; unfold extend;
    cbn [first prop_set]; now rewrite String.eqb_refl.
Qed.

(** What [ensureIndexes] leaves, in closed form. The caller's array gains one
    compound (the path, then [_id], both ascending) per sortable path, in
    the order of the paths. [schema.compounds] is that array followed by a
    copy of each of its entries with the order of the first field set to
    -1 and every other field as it was. The indexes declared are one per
    searchable or sortable path, then, again, every compound followed by its
    copy. *)
Theorem ensureIndexes_closed_form (paths : Paths)
  (compounds0 : list SortSpec) :
  let made := map (fun p => compound_of (fst p))
                (List.filter is_sortable paths) in
  pushed (ensureIndexes paths compounds0) = compounds0 ++ made
  /\ compounds (ensureIndexes paths compounds0)
     = (compounds0 ++ made) ++ map extend (compounds0 ++ made)
  /\ declared (ensureIndexes paths compounds0)
     = map index_of (List.filter is_indexed paths)
       ++ flat_map (fun o => [o; extend o]) (compounds0 ++ made)
  /\ List.length (compounds (ensureIndexes paths compounds0))
     = (2 * (List.length compounds0
             + List.length (List.filter is_sortable paths)))%nat.
Proof.
  cbv zeta. rewrite ensure_closed_form. cbv zeta. cbn [pushed compounds declared].
  repeat split. rewrite !length_app, !length_map, length_app, length_map. lia.
Qed.

(** A sortable path other than [_id] gets two compounds, both declared as
    indexes: the path and [_id] ascending, and the path descending with
    [_id] still ascending. *)
Theorem sortable_path_compounds (paths : Paths) (compounds0 : list SortSpec)
  (path : Field) (o : PathOptions) :
  In (path, Some o) paths -> sortable o = true -> path <> "_id" ->
  let r := ensureIndexes paths compounds0 in
  In [(path, 1); ("_id", 1)] (compounds r)
  /\ In [(path, -1); ("_id", 1)] (compounds r)
  /\ In [(path, 1); ("_id", 1)] (declared r)
  /\ In [(path, -1); ("_id", 1)] (declared r).
Proof.
  intros Hin Hso Hp. cbv zeta. rewrite ensure_closed_form. cbv zeta.
  cbn [compounds declared].
  assert (Hneq : String.eqb "_id" path = false).
  { apply String.eqb_neq. congruence. }
  assert (Hc : In (compound_of path)
                 (map (fun p => compound_of (fst p))
                    (List.filter is_sortable paths))).
  { apply in_map_iff. exists (path, Some o). split; [reflexivity|].
    apply filter_In. split; [exact Hin|exact Hso]. }
  pose proof (compound_of_cases path) as H1. rewrite Hneq in H1.
  pose proof (extend_compound_of path) as H2. rewrite Hneq in H2.
  rewrite <- H1, <- H2.
  assert (Hpushed : In (compound_of path)
                      (compounds0
                       ++ map (fun p => compound_of (fst p))
                            (List.filter is_sortable paths))).
  { apply in_or_app. now right. }
  repeat split.
  - apply in_or_app. now left.
  - apply in_or_app. right. now apply in_map.
  - apply in_or_app. right. apply in_flat_map.
    exists (compound_of path). split; [exact Hpushed|now left].
  - apply in_or_app. right. apply in_flat_map.
    exists (compound_of path). split; [exact Hpushed|right; now left].
Qed.

(** Witness: a schema with the sortable path [price]. *)
Lemma sortable_path_compounds_witness :
  let r := ensureIndexes
             [("name", Some {| searchable := true; sortable := false |});
              ("price", Some {| searchable := false; sortable := true |})]
             [] in
  In [("price", 1); ("_id", 1)] (compounds r)
  /\ In [("price", -1); ("_id", 1)] (compounds r)
  /\ In [("price", 1); ("_id", 1)] (declared r)
  /\ In [("price", -1); ("_id", 1)] (declared r).
Proof.
  apply (sortable_path_compounds
           [("name", Some {| searchable := true; sortable := false |});
            ("price", Some {| searchable := false; sortable := true |})]
           [] "price" {| searchable := false; sortable := true |}).
  - right. now left.
  - reflexivity.
  - discriminate.
Defined.

(** Every index declared from an empty array of compounds is ascending in
    all its fields after the first. *)
Lemma declared_tail_ascending (paths : Paths) (d : SortSpec) :
  In d (declared (ensureIndexes paths [])) ->
  Forall (fun kv => snd kv = 1) (tl d).
Proof.
  rewrite ensure_closed_form. cbv zeta. cbn [declared app].
  intros H. apply in_app_or in H as [H|H].
  - apply in_map_iff in H as ([path o] & <- & _).
    unfold index_of. destruct (is_sortable (path, o)); cbn [fst];
      [|constructor].
    rewrite compound_of_cases.
    destruct (String.eqb "_id" path); repeat constructor.
  - apply in_flat_map in H as (c & Hc & Hd).
    apply in_map_iff in Hc as ([path o] & <- & _). cbn [fst] in Hd.
    destruct Hd as [<-|[<-|[]]].
    + rewrite compound_of_cases.
      destruct (String.eqb "_id" path); repeat constructor.
    + rewrite extend_compound_of.
      destruct (String.eqb "_id" path); repeat constructor.
Qed.

(** The hint [find] computes against the indexes [ensureIndexes] declares,
    for a sortable path other than [_id] and compounds started empty. For
    the ascending compound the hint is the compound, a declared index. For
    the descending compound of [schema.compounds] (the path at -1, [_id] at
    1) the hint is the path at 1 with [_id] at -1, and no index is declared
    with that key pattern. For the sort with both fields at -1 the hint is
    the ascending compound again. *)
Theorem hints_against_declared_indexes (paths : Paths) (path : Field)
  (o : PathOptions) (search : Search) :
  In (path, Some o) paths -> sortable o = true -> path <> "_id" ->
  let r := ensureIndexes paths [] in
  (search_sort search = [(path, 1); ("_id", 1)] ->
   In (Index.r_hint (Index.resolve search)) (declared r))
  /\ (search_sort search = [(path, -1); ("_id", 1)] ->
      Index.r_hint (Index.resolve search) = [(path, 1); ("_id", -1)]
      /\ ~ In (Index.r_hint (Index.resolve search)) (declared r))
  /\ (search_sort search = [(path, -1); ("_id", -1)] ->
      In (Index.r_hint (Index.resolve search)) (declared r)).
Proof.
  intros Hin Hso Hp. cbv zeta.
  assert (Hup : In [(path, 1); ("_id", 1)] (declared (ensureIndexes paths []))).
  { rewrite ensure_closed_form. cbv zeta. cbn [declared app].
    apply in_or_app. right. apply in_flat_map.
    exists (compound_of path). split.
    - apply in_map_iff. exists (path, Some o). split; [reflexivity|].
      apply filter_In. split; [exact Hin|exact Hso].
    - left. rewrite compound_of_cases.
      destruct (String.eqb_spec "_id" path); congruence. }
  assert (Hhint : forall sort,
             search_sort search = sort ->
             Index.r_hint (Index.resolve search)
             = if is_one (primary_order sort) then sort else invert sort).
  { intros sort <-. unfold Index.resolve.
    now destruct (is_one (primary_order (search_sort search))). }
  assert (Hfirst : forall v rest,
             primary_order ((path, v) :: rest) = Some v).
  { intros v rest. unfold primary_order. cbn [first prop_get].
    now rewrite String.eqb_refl. }
  split; [|split]; intros Hsort; rewrite (Hhint _ Hsort), Hfirst;
    cbn [is_one Z.eqb invert map fst snd Z.mul Pos.mul Z.opp].
  - exact Hup.
  - split; [reflexivity|]. intros Hd.
    apply declared_tail_ascending in Hd. cbn [tl] in Hd.
    apply Forall_inv in Hd. discriminate.
  - exact Hup.
Qed.

(** Witness: the sortable path [price]. *)
Lemma hints_against_declared_indexes_witness :
  let r := ensureIndexes
             [("price", Some {| searchable := false; sortable := true |})]
             [] in
  Index.r_hint (Index.resolve
                  (ctx_search (Scenario.request
                                 [("price", -1); ("_id", 1)] 2)))
  = [("price", 1); ("_id", -1)]
  /\ ~ In (Index.r_hint (Index.resolve
                           (ctx_search (Scenario.request
                                          [("price", -1); ("_id", 1)] 2))))
         (declared r).
Proof.
  apply (hints_against_declared_indexes
           [("price", Some {| searchable := false; sortable := true |})]
           "price" {| searchable := false; sortable := true |}
           (ctx_search (Scenario.request [("price", -1); ("_id", 1)] 2))).
  - now left.
  - reflexivity.
  - discriminate.
  - reflexivity.
Defined.

End EnsureIndexes.

(** ** [exports.cast] *)

Section CastFacts.

Import Casting.

Variable V : Type.
Variable ObjectId : V -> option V.
Variable paths : Paths V.

Local Abbreviation cast_of := (Casting.cast_of V ObjectId paths).

Lemma cast_step (done : Obj V) (field : Field) (v : V) (todo : Obj V) :
  cast_loop V ObjectId paths done ((field, v) :: todo)
  = match converted V ObjectId paths field v with
    | Some v' => cast_loop V ObjectId paths (done ++ [(field, v')]) todo
    | None => Thrown V (done ++ (field, v) :: todo)
    end.
Proof.
  cbn [cast_loop]. unfold converted.
  destruct (prop_get field paths) as [[options|]|]; [|reflexivity|reflexivity].
  destruct (String.eqb field "_id").
  - now destruct (ObjectId v).
  - destruct (type V options) as [ctor|]; [|reflexivity].
    now destruct (ctor v).
Qed.

Lemma cast_loop_spec (todo done : Obj V) :
  match cast_loop V ObjectId paths done todo with
  | Returned _ d =>
      exists todo', d = done ++ todo' /\ Forall2 cast_of todo todo'
  | Thrown _ d =>
      exists pre pre' f v post,
        todo = pre ++ (f, v) :: post
        /\ Forall2 cast_of pre pre'
        /\ converted V ObjectId paths f v = None
        /\ d = done ++ pre' ++ (f, v) :: post
  end.
Proof.
  revert done. induction todo as [|[field v] todo IH]; intros done.
  - cbn. exists []. split; [now rewrite app_nil_r|constructor].
  - rewrite cast_step.
    destruct (converted V ObjectId paths field v) as [v'|] eqn:Hc.
    + specialize (IH (done ++ [(field, v')])).
      destruct (cast_loop V ObjectId paths (done ++ [(field, v')]) todo)
        as [d|d].
      * destruct IH as (todo' & -> & H). exists ((field, v') :: todo').
        split; [now rewrite <- app_assoc|].
        constructor; [now split|exact H].
      * destruct IH as (pre & pre' & f & w & post & -> & H & Hf & ->).
        exists ((field, v) :: pre), ((field, v') :: pre'), f, w, post.
        repeat split; try assumption.
        -- constructor; [now split|exact H].
        -- now rewrite <- app_assoc.
    + exists [], [], field, v, todo. repeat split; [constructor|exact Hc].
Qed.

(** [cast] rewrites [data] in place, field by field in the order of [data]:
    [_id] by [ObjectId], whatever type the schema declares for it, and any
    other field by the constructor the schema declares. When it returns,
    every field holds its converted value. It throws at the first field
    that has no path in the schema, no options, no constructor (unless it is
    [_id]), or whose constructor throws; the fields before it are then
    already converted in [data], and that field and the ones after it are
    untouched. *)
Theorem cast_converts_in_place (data : Obj V) :
  match cast V ObjectId paths data with
  | Returned _ d => Forall2 cast_of data d
  | Thrown _ d =>
      exists pre pre' f v post,
        data = pre ++ (f, v) :: post
        /\ Forall2 cast_of pre pre'
        /\ converted V ObjectId paths f v = None
        /\ d = pre' ++ (f, v) :: post
  end.
Proof.
  unfold cast. pose proof (cast_loop_spec data []) as H.
  destruct (cast_loop V ObjectId paths [] data) as [d|d].
  - destruct H as (todo' & -> & H). exact H.
  - exact H.
Qed.

Lemma cast_of_fields (l l' : Obj V) :
  Forall2 cast_of l l' -> map fst l' = map fst l.
Proof.
  induction 1 as [|a b l l' [Hf _] _ IH]; cbn; [reflexivity|].
  now rewrite Hf, IH.
Qed.

(** However [cast] ends, [data] keeps its fields and their order; and when
    [cast] returns, every field of [data] is a path of the schema that has
    options. A field the schema does not know makes [cast] throw. *)
Theorem cast_keeps_fields (data : Obj V) :
  match cast V ObjectId paths data with
  | Returned _ d =>
      map fst d = map fst data
      /\ Forall (fun a => exists options,
                     prop_get (fst a) paths = Some (Some options)) data
  | Thrown _ d => map fst d = map fst data
  end.
Proof.
  unfold cast. pose proof (cast_loop_spec data []) as H.
  destruct (cast_loop V ObjectId paths [] data) as [d|d].
  - destruct H as (todo' & -> & H). split; [now apply cast_of_fields|].
    clear -H. induction H as [|a b l l' [_ Hc] _ IH]; constructor;
      [|exact IH].
    unfold converted in Hc.
    destruct (prop_get (fst a) paths) as [[options|]|]; try discriminate.
    now exists options.
  - destruct H as (pre & pre' & f & v & post & -> & H & _ & ->).
    cbn [app]. rewrite !map_app. cbn [map fst].
    now rewrite (cast_of_fields _ _ H).
Qed.

End CastFacts.

(** ** Creating, updating, reading and removing *)

Section CrudFacts.

Import Crud.

Variable Sv : Services.

(** [updated] by what it finds in [modelUpdatesQueueUrl] and what the queue
    lookup answers. *)
Lemma updated_closed_form (ctx : Context) (id : option Z) (action : string)
  (changes : Changes) (w : World) :
  updated Sv ctx id action changes w
  = if truthy_string (modelUpdatesQueueUrl w) then
      let m := message Sv ctx id action changes (modelUpdatesQueueUrl w)
                 (drawn w) in
      ({| modelUpdatesQueueUrl := modelUpdatesQueueUrl w;
          drawn := S (drawn w);
          events := events w ++ [SendMessage m] |},
       sendMessage Sv m)
    else
      match getQueueUrl Sv (queue_name Sv) with
      | inl err =>
          ({| modelUpdatesQueueUrl := modelUpdatesQueueUrl w;
              drawn := drawn w;
              events := events w ++ [GetQueueUrl (queue_name Sv)] |},
           Some err)
      | inr url =>
          let m := message Sv ctx id action changes url (drawn w) in
          ({| modelUpdatesQueueUrl := url;
              drawn := S (drawn w);
              events := events w
                        ++ [GetQueueUrl (queue_name Sv); SendMessage m] |},
           sendMessage Sv m)
      end.
Proof.
  unfold updated, findModelUpdatesQueueUrl, message, queue_name, log.
  destruct (truthy_string (modelUpdatesQueueUrl w)); cbn.
  - destruct w; reflexivity.
  - destruct (getQueueUrl Sv _) as [err|url]; cbn; [reflexivity|].
    now rewrite <- app_assoc.
Qed.

(** The queue is looked up once. Starting without a queue URL, when the
    lookup answers with a non-empty URL, two changes published one after the
    other cause one lookup and two messages, both to that URL, with the
    first and the second identifier drawn; the URL stays in
    [modelUpdatesQueueUrl]. *)
Theorem queue_url_is_cached (ctx1 ctx2 : Context) (id1 id2 : option Z)
  (action1 action2 : string) (changes1 changes2 : Changes) (w : World)
  (url : string) :
  truthy_string (modelUpdatesQueueUrl w) = false ->
  getQueueUrl Sv (queue_name Sv) = inr (Some url) ->
  url <> EmptyString ->
  let w1 := fst (updated Sv ctx1 id1 action1 changes1 w) in
  let w2 := fst (updated Sv ctx2 id2 action2 changes2 w1) in
  events w2
  = events w
    ++ [GetQueueUrl (queue_name Sv);
        SendMessage (message Sv ctx1 id1 action1 changes1 (Some url)
                       (drawn w));
        SendMessage (message Sv ctx2 id2 action2 changes2 (Some url)
                       (S (drawn w)))]
  /\ modelUpdatesQueueUrl w2 = Some url
  /\ drawn w2 = S (S (drawn w)).
Proof.
  intros Hcache Hlookup Hurl. cbv zeta.
  rewrite (updated_closed_form ctx1), Hcache, Hlookup. cbn [fst].
  rewrite updated_closed_form. cbn [modelUpdatesQueueUrl drawn events].
  assert (Ht : truthy_string (Some url) = true)
    by (destruct url; [contradiction|reflexivity]).
  rewrite Ht. cbn [fst modelUpdatesQueueUrl drawn events].
  rewrite <- app_assoc. repeat split.
Qed.

(** A lookup that fails leaves the world as it was but for the lookup: no
    message, no identifier drawn, nothing kept in [modelUpdatesQueueUrl], so
    that the next change looks the queue up again; the error of the lookup
    is the error [updated] calls back with. *)
Theorem failed_lookup_is_not_cached (ctx : Context) (id : option Z)
  (action : string) (changes : Changes) (w : World) (err : Err) :
  truthy_string (modelUpdatesQueueUrl w) = false ->
  getQueueUrl Sv (queue_name Sv) = inl err ->
  let w1 := fst (updated Sv ctx id action changes w) in
  snd (updated Sv ctx id action changes w) = Some err
  /\ events w1 = events w ++ [GetQueueUrl (queue_name Sv)]
  /\ modelUpdatesQueueUrl w1 = modelUpdatesQueueUrl w
  /\ drawn w1 = drawn w
  /\ exists added,
      events (fst (updated Sv ctx id action changes w1))
      = events w1 ++ GetQueueUrl (queue_name Sv) :: added.
Proof.
  intros Hcache Hlookup. cbv zeta.
  rewrite !(updated_closed_form ctx id action changes w), Hcache, Hlookup.
  cbn [fst snd events modelUpdatesQueueUrl drawn]. repeat split.
  rewrite updated_closed_form. cbn [modelUpdatesQueueUrl]. rewrite Hcache, Hlookup.
  cbn [fst events]. now exists [].
Qed.

Lemma publishing_app (l l' : list Event) :
  List.filter is_publishing (l ++ l')
  = List.filter is_publishing l ++ List.filter is_publishing l'.
Proof. apply filter_app. Qed.

(** A write that replies without a record replies with an error and has
    published nothing: no queue lookup, no message, no identifier drawn, and
    [modelUpdatesQueueUrl] as it was. This holds for [create] and [update]
    of [src/index.js], whether validation, the store or a missing record
    stopped them. *)
Theorem failed_writes_publish_nothing (ctx : Context) (w : World) :
  let unpublished (r : World * Reply Row) :=
    reply_value (snd r) = None ->
    reply_err (snd r) <> None
    /\ List.filter is_publishing (events (fst r))
       = List.filter is_publishing (events w)
    /\ modelUpdatesQueueUrl (fst r) = modelUpdatesQueueUrl w
    /\ drawn (fst r) = drawn w in
  unpublished (create Sv ctx w) /\ unpublished (update Sv ctx w).
Proof.
  cbv zeta. unfold create, update, log. split.
  - destruct (validate Sv "create" ctx) as [err|ctx']; cbn [fst snd].
    + cbn. intros _. repeat split. discriminate.
    + destruct (model_create (model ctx') (data ctx')) as [err|o];
        cbn [fst snd reply_value reply_err events modelUpdatesQueueUrl drawn].
      * intros _. rewrite publishing_app. cbn. rewrite app_nil_r.
        repeat split. discriminate.
      * destruct (updated Sv ctx' _ _ _ _). cbn. discriminate.
  - destruct (validate Sv "update" ctx) as [err|ctx']; cbn [fst snd].
    + cbn. intros _. repeat split. discriminate.
    + destruct (model_findOneAndUpdate (model ctx') (query ctx') (data ctx'))
        as [err|[o|]];
        cbn [fst snd reply_value reply_err events modelUpdatesQueueUrl drawn].
      * intros _. rewrite publishing_app. cbn. rewrite app_nil_r.
        repeat split. discriminate.
      * destruct (updated Sv ctx' _ _ _ _). cbn. discriminate.
      * intros _. rewrite publishing_app. cbn. rewrite app_nil_r.
        repeat split. discriminate.
Qed.

(** A record the store created is part of the reply of [create] whatever
    becomes of publishing the change: the reply carries the record, and it
    carries an error as well exactly when the queue lookup or the sending of
    the message failed, that error being theirs. The store is not asked to
    undo anything. *)
Theorem created_record_survives_publishing (ctx0 ctx : Context) (w : World)
  (o : Row) :
  validate Sv "create" ctx0 = inr ctx ->
  model_create (model ctx) (data ctx) = inr o ->
  let r := create Sv ctx0 w in
  reply_value (snd r) = Some o
  /\ (exists added,
        events (fst r) = events w ++ Create (data ctx) :: added
        /\ List.filter is_publishing added = added)
  /\ reply_err (snd r)
     = snd (updated Sv ctx (prop_get "id" o) "create" (diff Sv [] o)
              (log (Create (data ctx)) w))
  /\ forall err,
      reply_err (snd r) = Some err ->
      getQueueUrl Sv (queue_name Sv) = inl err
      \/ exists m, In (SendMessage m) (events (fst r))
                   /\ sendMessage Sv m = Some err.
Proof.
  intros Hv Hc. cbv zeta. unfold create. rewrite Hv, Hc.
  rewrite updated_closed_form. unfold log.
  cbn [modelUpdatesQueueUrl drawn events].
  destruct (truthy_string (modelUpdatesQueueUrl w)); cbv zeta;
    [|destruct (getQueueUrl Sv (queue_name Sv)) as [e|url]];
    cbn [fst snd reply_value reply_err events];
    (split; [reflexivity|]); (split; [|split; [reflexivity|]]).
  - eexists. split; [now rewrite <- app_assoc|reflexivity].
  - intros err He. right. eexists. split; [|exact He].
    apply in_or_app. right. now left.
  - eexists. split; [now rewrite <- app_assoc|reflexivity].
  - intros err He. left. congruence.
  - eexists. split; [now rewrite <- app_assoc|reflexivity].
  - intros err He. right. eexists. split; [|exact He].
    apply in_or_app. right. right. now left.
Qed.

(** What [updated] adds to the world: events of publishing only, among them
    at most one message, which carries the identifier drawn for it. *)
Lemma updated_adds (ctx : Context) (id : option Z) (action : string)
  (changes : Changes) (w : World) :
  exists pub,
    events (fst (updated Sv ctx id action changes w)) = events w ++ pub
    /\ List.filter is_publishing pub = pub
    /\ (List.length (List.filter is_message pub) <= 1)%nat
    /\ drawn (fst (updated Sv ctx id action changes w))
       = (drawn w + List.length (List.filter is_message pub))%nat
    /\ forall m,
        In (SendMessage m) pub ->
        MessageGroupId m = uuid Sv (drawn w)
        /\ MessageDeduplicationId m = uuid Sv (drawn w).
Proof.
  rewrite updated_closed_form.
  destruct (truthy_string (modelUpdatesQueueUrl w)); cbv zeta;
    [|destruct (getQueueUrl Sv (queue_name Sv)) as [e|url]];
    cbn [fst events drawn]; eexists; (split; [reflexivity|]);
    cbn [List.filter is_publishing is_message List.length];
    (split; [reflexivity|]); (split; [lia|]); (split; [lia|]);
    intros msg Hm; cbn [In] in Hm;
    repeat match goal with
           | H : _ \/ _ |- _ => destruct H as [H|H]
           | H : False |- _ => destruct H
           | H : GetQueueUrl _ = SendMessage _ |- _ => discriminate H
           | H : SendMessage _ = SendMessage _ |- _ =>
               injection H as <-; now split
           end.
Qed.

(** Every call of [create] or [update] sends at most one message, and draws
    one identifier per message sent; a message sent has that identifier, the
    next to draw when the call began, both as its group and as its
    deduplication identifier. *)
Theorem messages_are_single_and_grouped (ctx : Context) (w : World) :
  let single (r : World * Reply Row) :=
    exists added,
      events (fst r) = events w ++ added
      /\ (List.length (List.filter is_message added) <= 1)%nat
      /\ drawn (fst r)
         = (drawn w + List.length (List.filter is_message added))%nat
      /\ forall m,
          In (SendMessage m) added ->
          MessageGroupId m = uuid Sv (drawn w)
          /\ MessageDeduplicationId m = uuid Sv (drawn w) in
  single (create Sv ctx w) /\ single (update Sv ctx w).
Proof.
  assert (Hnone : forall d : Event,
             is_message d = false ->
             exists added,
               events (log d w) = events w ++ added
               /\ (List.length (List.filter is_message added) <= 1)%nat
               /\ drawn (log d w)
                  = (drawn w + List.length (List.filter is_message added))%nat
               /\ forall m,
                   In (SendMessage m) added ->
                   MessageGroupId m = uuid Sv (drawn w)
                   /\ MessageDeduplicationId m = uuid Sv (drawn w)).
  { intros d Hd. exists [d]. cbn [log events drawn List.filter]. rewrite Hd.
    cbn [app List.length].
    split; [reflexivity|]. split; [lia|]. split; [lia|].
    intros m [->|[]]. discriminate. }
  assert (Hsome : forall (d : Event) ctx' id action changes,
             is_message d = false ->
             exists added,
               events (fst (updated Sv ctx' id action changes (log d w)))
               = events w ++ added
               /\ (List.length (List.filter is_message added) <= 1)%nat
               /\ drawn (fst (updated Sv ctx' id action changes (log d w)))
                  = (drawn w + List.length (List.filter is_message added))%nat
               /\ forall m,
                   In (SendMessage m) added ->
                   MessageGroupId m = uuid Sv (drawn w)
                   /\ MessageDeduplicationId m = uuid Sv (drawn w)).
  { intros d ctx' id action changes Hd.
    destruct (updated_adds ctx' id action changes (log d w))
      as (pub & He & _ & Hl & Hdr & Hm).
    exists (d :: pub). cbn [log events drawn] in He, Hdr, Hm.
    rewrite He, Hdr, <- app_assoc. cbn [List.filter app]. rewrite Hd.
    split; [reflexivity|]. split; [exact Hl|]. split; [reflexivity|].
    intros m [->|Hin]; [discriminate|now apply Hm]. }
  cbv zeta. unfold create, update. split.
  - destruct (validate Sv "create" ctx) as [err|ctx']; cbn [fst snd].
    + exists []. rewrite app_nil_r. cbn.
      split; [reflexivity|]. split; [lia|]. split; [lia|]. intros m [].
    + destruct (model_create (model ctx') (data ctx')) as [err|o].
      * now apply Hnone.
      * destruct (updated Sv ctx' (prop_get "id" o) "create"
                    (diff Sv [] o) (log (Create (data ctx')) w))
          as [w' e] eqn:Hu.
        cbn [fst].
        change w' with (fst (w', e)). rewrite <- Hu. now apply Hsome.
  - destruct (validate Sv "update" ctx) as [err|ctx']; cbn [fst snd].
    + exists []. rewrite app_nil_r. cbn.
      split; [reflexivity|]. split; [lia|]. split; [lia|]. intros m [].
    + destruct (model_findOneAndUpdate (model ctx') (query ctx') (data ctx'))
        as [err|[o|]].
      * now apply Hnone.
      * destruct (updated Sv ctx' (prop_get "id" o) "update"
                    (diff Sv (found ctx') o)
                    (log (FindOneAndUpdate (query ctx') (data ctx')) w))
          as [w' e] eqn:Hu.
        cbn [fst].
        change w' with (fst (w', e)). rewrite <- Hu. now apply Hsome.
      * now apply Hnone.
Qed.

(** Reading and removing never publish, and neither does any operation of
    [src/unnamed/part_000]: they look no queue up, send no message, draw no
    identifier and leave [modelUpdatesQueueUrl] alone; all they add to the
    world is the one call of the store, once validation has passed. In
    particular the removal of a record is not announced on the queue. *)
Theorem reads_and_removes_never_publish (ctx : Context) (w : World) :
  let quiet (r : World * Reply Row) :=
    modelUpdatesQueueUrl (fst r) = modelUpdatesQueueUrl w
    /\ drawn (fst r) = drawn w
    /\ exists added,
        events (fst r) = events w ++ added
        /\ List.filter is_publishing added = []
        /\ (List.length added <= 1)%nat in
  quiet (findOne Sv ctx w) /\ quiet (remove Sv ctx w)
  /\ quiet (plain_create Sv ctx w) /\ quiet (plain_update Sv ctx w)
  /\ quiet (plain_findOne Sv ctx w).
Proof.
  assert (Hsame : exists added : list Event,
             events w = events w ++ added
             /\ List.filter is_publishing added = []
             /\ (List.length added <= 1)%nat).
  { exists []. rewrite app_nil_r. cbn. auto. }
  assert (Hone : forall d, is_publishing d = false ->
             exists added : list Event,
               events w ++ [d] = events w ++ added
               /\ List.filter is_publishing added = []
               /\ (List.length added <= 1)%nat).
  { intros d Hd. exists [d]. cbn. rewrite Hd. auto. }
  cbv zeta.
  unfold findOne, remove, plain_create, plain_update, plain_findOne, log.
  repeat split;
    repeat match goal with
           | |- context [match ?x with _ => _ end] =>
               lazymatch x with
               | context [match _ with _ => _ end] => fail
               | context [if _ then _ else _] => fail
               | _ => destruct x
               end
           | |- context [if ?x then _ else _] => destruct x
           end;
    cbn [fst snd modelUpdatesQueueUrl drawn events];
    try reflexivity; try exact Hsame; now apply Hone.
Qed.

(** [remove] replies with the report of the store only when the report
    counts at least one record removed, and then without error. When the
    store succeeds with a report whose [n] is 0 or missing, the store has
    been called, nothing else has happened, and the reply is the not-found
    error without the report. *)
Theorem remove_reports_only_removals (ctx : Context) (w : World) :
  (forall o,
      reply_value (snd (remove Sv ctx w)) = Some o ->
      truthy (prop_get "n" o) = true
      /\ reply_err (snd (remove Sv ctx w)) = None
      /\ exists ctx',
          validate Sv "remove" ctx = inr ctx'
          /\ model_remove (model ctx') (query ctx') = inr o)
  /\ (forall ctx' o,
        validate Sv "remove" ctx = inr ctx' ->
        model_remove (model ctx') (query ctx') = inr o ->
        truthy (prop_get "n" o) = false ->
        remove Sv ctx w
        = (log (Remove (query ctx')) w,
           {| reply_err := Some (notFound Sv); reply_value := None |})).
Proof.
  unfold remove. split.
  - intros o. destruct (validate Sv "remove" ctx) as [err|ctx'];
      cbn [snd reply_value reply_err]; [discriminate|].
    destruct (model_remove (model ctx') (query ctx')) as [err|o'] eqn:Hr;
      cbn [snd reply_value reply_err]; [discriminate|].
    destruct (truthy (prop_get "n" o')) eqn:Hn;
      cbn [negb snd reply_value reply_err]; [|discriminate].
    intros H. injection H as <-.
    split; [exact Hn|]. split; [reflexivity|]. exists ctx'. split;
      [reflexivity|assumption].
  - intros ctx' o Hv Hr Hn. now rewrite Hv, Hr, Hn.
Qed.

(** The operations of [src/index.js] against those of
    [src/unnamed/part_000]. [create] and [update] make the same call of the
    store, reply with the same record, and add only events of publishing;
    they reply alike when the plain one replies with an error, and when it
    replies with a record, the error of the reply is the error of
    publishing, if any. [findOne] makes the same call and replies alike
    without a record; with a record it replies with what [utils.visibles]
    makes of it, where the plain one replies with the record as stored. *)
Theorem plain_operations_agree (ctx : Context) (w : World) :
  let extends (r p : World * Reply Row) :=
    (exists pub,
        events (fst r) = events (fst p) ++ pub
        /\ List.filter is_publishing pub = pub)
    /\ reply_value (snd r) = reply_value (snd p)
    /\ (reply_err (snd p) <> None -> snd r = snd p) in
  extends (create Sv ctx w) (plain_create Sv ctx w)
  /\ extends (update Sv ctx w) (plain_update Sv ctx w)
  /\ fst (findOne Sv ctx w) = fst (plain_findOne Sv ctx w)
  /\ (reply_err (snd (plain_findOne Sv ctx w)) <> None ->
      snd (findOne Sv ctx w) = snd (plain_findOne Sv ctx w))
  /\ (forall ctx' o,
        validate Sv "findOne" ctx = inr ctx' ->
        reply_value (snd (plain_findOne Sv ctx w)) = Some o ->
        snd (findOne Sv ctx w)
        = match visibles Sv ctx' (json Sv o) with
          | inl err => {| reply_err := Some err; reply_value := None |}
          | inr o' => {| reply_err := None; reply_value := Some o' |}
          end).
Proof.
  assert (Hnil : forall l : list Event,
             exists pub, l = l ++ pub /\ List.filter is_publishing pub = pub).
  { intros l. exists []. now rewrite app_nil_r. }
  cbv zeta. unfold create, update, findOne, plain_create, plain_update,
    plain_findOne.
  split; [|split; [|split; [|split]]].
  - destruct (validate Sv "create" ctx) as [err|ctx']; cbn [fst snd];
      [repeat split; auto|].
    destruct (model_create (model ctx') (data ctx')) as [err|o];
      cbn [fst snd]; [repeat split; auto|].
    destruct (updated_adds ctx' (prop_get "id" o) "create" (diff Sv [] o)
                (log (Create (data ctx')) w)) as (pub & He & Hp & _).
    destruct (updated Sv ctx' _ _ _ _) as [w' e].
    cbn [fst snd reply_value reply_err] in *.
    repeat split; [now exists pub|]. intros H. now contradiction H.
  - destruct (validate Sv "update" ctx) as [err|ctx']; cbn [fst snd];
      [repeat split; auto|].
    destruct (model_findOneAndUpdate (model ctx') (query ctx') (data ctx'))
      as [err|[o|]]; cbn [fst snd]; [repeat split; auto| |repeat split; auto].
    destruct (updated_adds ctx' (prop_get "id" o) "update"
                (diff Sv (found ctx') o)
                (log (FindOneAndUpdate (query ctx') (data ctx')) w))
      as (pub & He & Hp & _).
    destruct (updated Sv ctx' _ _ _ _) as [w' e].
    cbn [fst snd reply_value reply_err] in *.
    repeat split; [now exists pub|]. intros H. now contradiction H.
  - destruct (validate Sv "findOne" ctx) as [err|ctx']; [reflexivity|].
    destruct (model_findOne (model ctx') (query ctx')) as [err|[o|]];
      [reflexivity| |reflexivity].
    now destruct (visibles Sv ctx' (json Sv o)).
  - destruct (validate Sv "findOne" ctx) as [err|ctx']; [reflexivity|].
    destruct (model_findOne (model ctx') (query ctx')) as [err|[o|]];
      cbn [fst snd reply_err]; [reflexivity| |reflexivity].
    intros H. now contradiction H.
  - intros ctx' o ->.
    destruct (model_findOne (model ctx') (query ctx')) as [err|[o'|]];
      cbn [fst snd reply_value]; try discriminate.
    intros H. injection H as ->.
    now destruct (visibles Sv ctx' (json Sv o)).
Qed.

End CrudFacts.

(** Witness: two changes published from a fresh world. *)
Lemma queue_url_is_cached_witness :
  let w2 := fst (Crud.updated Crud.sample_services Crud.sample_context
                   (Some 8) "update" []
                   (fst (Crud.updated Crud.sample_services Crud.sample_context
                           (Some 7) "create" [] Crud.fresh))) in
  List.length (List.filter Crud.is_publishing (Crud.events w2)) = 3%nat
  /\ Crud.modelUpdatesQueueUrl w2 = Some "https://queue"
  /\ Crud.drawn w2 = 2%nat.
Proof.
  destruct (queue_url_is_cached Crud.sample_services Crud.sample_context
              Crud.sample_context (Some 7) (Some 8) "create" "update" [] []
              Crud.fresh "https://queue" eq_refl eq_refl)
    as (He & Hu & Hd); [discriminate|].
  cbv zeta. rewrite He. split; [reflexivity|]. now split.
Defined.

(** Witness: a change published while the queue cannot be found. *)
Lemma failed_lookup_is_not_cached_witness :
  snd (Crud.updated Crud.offline_services Crud.sample_context (Some 7)
         "create" [] Crud.fresh) = Some "no such queue"
  /\ Crud.modelUpdatesQueueUrl
       (fst (Crud.updated Crud.offline_services Crud.sample_context (Some 7)
               "create" [] Crud.fresh)) = None.
Proof.
  destruct (failed_lookup_is_not_cached Crud.offline_services
              Crud.sample_context (Some 7) "create" [] Crud.fresh
              "no such queue" eq_refl eq_refl)
    as (He & _ & Hu & _).
  now split.
Defined.

(** Witness: the record is created, the queue refuses the message. *)
Lemma created_record_survives_publishing_witness :
  Crud.reply_value
    (snd (Crud.create Crud.sample_services Crud.sample_context Crud.fresh))
  = Some [("id", 7); ("price", 3)]
  /\ Crud.reply_err
       (snd (Crud.create Crud.sample_services Crud.sample_context Crud.fresh))
     = Some "queue is down".
Proof.
  destruct (created_record_survives_publishing Crud.sample_services
              Crud.sample_context Crud.sample_context Crud.fresh
              [("id", 7); ("price", 3)] eq_refl eq_refl)
    as (Hv & _ & He & _).
  split; [exact Hv|]. rewrite He. reflexivity.
Defined.
